(** * py2store: key codecs and the capability interfaces

    A shallow embedding of [py2store/base.py] and
    [py2store/key_mappers/tuples.py].

    Python values are modelled as follows.
    - [dict] used as a mapping: stdpp's [gmap] (Python's [==] on dicts
      ignores insertion order, as does equality of [gmap]s);
    - [tuple] / [list]: [list];
    - [str]: [string], a character being a code point below 256;
    - an object that [str.format] formats: a value of a type with the
      operations of [PyObject];
    - a call that may raise: a value of [outcome], either [Returns v] or
      [Raises e] for an [exception] [e];
    - a method of a stateful backend: a function from the backend state to an
      [outcome] and the state after the call. *)

From Stdlib Require Import String Ascii.
From stdpp Require Import base option list gmap strings pretty.

(** ** Exceptions and outcomes *)

(** The exception classes the two modules can let escape, and any other
    class derived from [Exception] that an operation of an object they are
    given raises, by its name. *)
Inductive exc_class :=
  | KeyValidationError
  | KeyError
  | IndexError
  | ValueError
  | TypeError
  | NotImplementedError
  | OtherError (name : string).

(** An exception instance: its class and its argument, which is a message or,
    in [KeyValidationError(e)], the exception that was caught. *)
Inductive exception :=
  | Exc (cls : exc_class) (msg : string)
  | ExcOf (cls : exc_class) (e : exception).

Definition class_of (e : exception) : exc_class :=
  match e with
  | Exc cls _ => cls
  | ExcOf cls _ => cls
  end.

Inductive outcome (A : Type) :=
  | Returns (a : A)
  | Raises (e : exception).
Arguments Returns {A} a.
Arguments Raises {A} e.

Global Instance outcome_ret : MRet outcome := λ A a, Returns a.

Global Instance outcome_bind : MBind outcome := λ A B k c,
  match c with
  | Returns a => k a
  | Raises e => Raises e
  end.

(** [try: c except Exception as e: h e] *)
Definition try_except {A} (c : outcome A) (h : exception → outcome A) : outcome A :=
  match c with
  | Returns a => Returns a
  | Raises e => h e
  end.

(** [tuple(f(x) for x in xs)]: the elements are computed from left to right
    and the first exception ends the traversal. *)
Fixpoint traverse {A B} (f : A → outcome B) (xs : list A) : outcome (list B) :=
  match xs with
  | [] => Returns []
  | x :: xs' => y ← f x; ys ← traverse f xs'; mret (y :: ys)
  end.

Definition raises_class {A} (c : outcome A) (cls : exc_class) : Prop :=
  ∃ e, c = Raises e ∧ class_of e = cls.

(** ** base.py *)

(** *** AbstractKeys *)

(** A concrete key collection supplies [__iter__]: one full iteration over
    the collection [self] yields the keys [__iter__ self], in that order.
    [key_eq] is the [==] of the keys. *)
Class AbstractKeys (C K : Type) := {
  __iter__ : C → list K;
  key_eq : K → K → bool;
}.

Section abstract_keys.
Context {C K : Type} `{AbstractKeys C K}.

(** The [for] loop of [__len__] over the keys still to be yielded; [count] is
    the local variable of that name. *)
Fixpoint len_loop (count : nat) (keys : list K) : nat :=
  match keys with
  | [] => count
  | _ :: keys' => len_loop (count + 1) keys'
  end.

Definition __len__ (self : C) : nat := len_loop 0 (__iter__ self).

(** The [for] loop of [__contains__]: [return True] at the first key equal to
    [k], [return False] once the iteration is exhausted. *)
Fixpoint contains_loop (k : K) (keys : list K) : bool :=
  match keys with
  | [] => false
  | collection_key :: keys' =>
      if key_eq collection_key k then true else contains_loop k keys'
  end.

Definition __contains__ (self : C) (k : K) : bool :=
  contains_loop k (__iter__ self).

End abstract_keys.

(** *** AbstractObjReader, AbstractObjWriter, AbstractObjStore *)

(** A method of an object whose backend state has type [S]: it returns or
    raises, and leaves a backend state. *)
Definition method (S A : Type) : Type := S → outcome A * S.

Definition raise {S A} (e : exception) : method S A := λ self, (Raises e, self).

Class AbstractObjReader (S K V : Type) := {
  __getitem__ : K → method S V;
}.

Class AbstractObjWriter (S K V : Type) := {
  __setitem__ : K → V → method S ();
  __delitem__ : K → method S ();
}.

(** [AbstractObjStore(AbstractObjSource, AbstractObjWriter, MutableMapping)]:
    what a concrete store has to supply. *)
Class AbstractObjStore (S K V : Type) := {
  store_keys :: AbstractKeys S K;
  store_reader :: AbstractObjReader S K V;
  store_writer :: AbstractObjWriter S K V;
}.

Definition clear {S K V : Type} `{!AbstractObjStore S K V} : method S () :=
  raise (Exc NotImplementedError
    "clear method was removed from MutableMapping subclass for safety reasons").

(** A store backed by a dict, as a concrete instance; its keys are iterated
    in the order of the [gmap]. *)
Definition dict_getitem {V} (k : string) : method (gmap string V) V := λ self,
  match self !! k with
  | Some v => (Returns v, self)
  | None => (Raises (Exc KeyError k), self)
  end.

Definition dict_setitem {V} (k : string) (v : V) : method (gmap string V) () :=
  λ self, (Returns (), <[k:=v]> self).

Definition dict_delitem {V} (k : string) : method (gmap string V) () := λ self,
  match self !! k with
  | Some _ => (Returns (), delete k self)
  | None => (Raises (Exc KeyError k), self)
  end.

Global Instance dict_keys {V} : AbstractKeys (gmap string V) string :=
  {| __iter__ self := (map_to_list self).*1; key_eq := String.eqb |}.
Global Instance dict_reader {V} : AbstractObjReader (gmap string V) string V :=
  {| __getitem__ := dict_getitem |}.
Global Instance dict_writer {V} : AbstractObjWriter (gmap string V) string V :=
  {| __setitem__ := dict_setitem; __delitem__ := dict_delitem |}.
Global Instance dict_store {V} : AbstractObjStore (gmap string V) string V := {}.

(** ** key_mappers/tuples.py *)

(** Modelled from the spec: [py2store.errors._assert_condition] is not part of
    the sources at hand; the spec gives it as the primitive that raises an
    error of the class it is given when its condition is false. *)
Definition _assert_condition (condition : bool) (err_msg : string)
    (err_cls : exc_class) : outcome () :=
  if condition then Returns () else Raises (Exc err_cls err_msg).

(** [__assert_condition = partial(_assert_condition, err_cls=KeyValidationError)] *)
Definition __assert_condition (condition : bool) (err_msg : string) : outcome () :=
  _assert_condition condition err_msg KeyValidationError.

(** The argument a [KeyError] carries for a key (the key itself, for a string
    key). *)
Class KeyArg (K : Type) := key_arg : K → string.
Global Instance string_key_arg : KeyArg string := λ k, k.

Section tuples_and_dicts.
Context {K V : Type} `{Countable K} `{KeyArg K}.

(** [d[f]] *)
Definition getitem (d : gmap K V) (f : K) : outcome V :=
  match d !! f with
  | Some v => Returns v
  | None => Raises (Exc KeyError (key_arg f))
  end.

Definition tuple_of_dict (d : gmap K V) (fields : list K) : outcome (list V) :=
  __assert_condition (bool_decide (length fields = size d))
    ("len(d)=" +:+ pretty (size d) +:+ " but len(fields)=" +:+ pretty (length fields));;
  traverse (getitem d) fields.

(** [{f: x for f, x in pairs}]: the items are stored from left to right, a
    later item replacing an earlier one with the same key. *)
Definition dict_comprehension (pairs : list (K * V)) : gmap K V :=
  foldl (λ d '(f, x), <[f:=x]> d) ∅ pairs.

Definition dict_of_tuple (t : list V) (fields : list K) : outcome (gmap K V) :=
  __assert_condition (bool_decide (length fields = length t))
    ("len(t)=" +:+ pretty (length t) +:+ " but len(fields)=" +:+ pretty (length fields));;
  mret (dict_comprehension (zip fields t)).

End tuples_and_dicts.

(** *** Compiled patterns *)

(** A match object, as far as the codecs use it: [groups()] (a group that
    took no part in the match is [None]) and [groupdict()]. *)
Record match_object := {
  groups : list (option string);
  groupdict : gmap string (option string);
}.

(** A compiled regular expression, as far as the codecs use it: its [match]
    method, which returns a match object when the pattern matches at the start
    of the string and [None] otherwise, and its [repr] for error messages. *)
Record compiled_regex := {
  regex_match : string → option match_object;
  regex_repr : string;
}.

Definition no_match_error (s : string) (compiled_regex : compiled_regex) : exception :=
  Exc KeyValidationError
    ("The string " +:+ s +:+ " didn't match the pattern " +:+ regex_repr compiled_regex).

(** A match object is always true, so [if m:] tests [m is not None]. *)
Definition tuple_of_str (s : string) (compiled_regex : compiled_regex)
    : outcome (list (option string)) :=
  match regex_match compiled_regex s with
  | Some m => Returns (groups m)
  | None => Raises (no_match_error s compiled_regex)
  end.

Definition dict_of_str (s : string) (compiled_regex : compiled_regex)
    : outcome (gmap string (option string)) :=
  match regex_match compiled_regex s with
  | Some m => Returns (groupdict m)
  | None => Raises (no_match_error s compiled_regex)
  end.

(** Two patterns of the kind the docstrings use, written out by hand:
    [re.compile('(\d{n})\w')] and [re.compile('(?P<name>\d{n})')]. *)
Definition is_digit (c : ascii) : bool :=
  let n := nat_of_ascii c in (48 <=? n)%nat && (n <=? 57)%nat.

Definition is_word (c : ascii) : bool :=
  let n := nat_of_ascii c in
  is_digit c || ((65 <=? n)%nat && (n <=? 90)%nat)
  || ((97 <=? n)%nat && (n <=? 122)%nat) || (n =? 95)%nat.

(** The [n] first characters of [s] when they all satisfy [p], with the rest. *)
Fixpoint take_while_n (p : ascii → bool) (n : nat) (s : string) : option (string * string) :=
  match n with
  | 0 => Some ("", s)
  | S n' =>
      match s with
      | String c s' =>
          if p c then '(m, rest) ← take_while_n p n' s'; Some (String c m, rest)
          else None
      | "" => None
      end
  end.

Definition digits_then_word (n : nat) : compiled_regex := {|
  regex_match s :=
    '(ds, rest) ← take_while_n is_digit n s;
    match rest with
    | String c _ =>
        if is_word c then Some {| groups := [Some ds]; groupdict := ∅ |} else None
    | "" => None
    end;
  regex_repr := "re.compile('(\\d{" +:+ pretty n +:+ "})\\w')";
|}.

Definition named_digits (name : string) (n : nat) : compiled_regex := {|
  regex_match s :=
    '(ds, _) ← take_while_n is_digit n s;
    Some {| groups := [Some ds]; groupdict := {[ name := Some ds ]} |};
  regex_repr := "re.compile('(?P<" +:+ name +:+ ">\\d{" +:+ pretty n +:+ "})')";
|}.

(** *** Delimiter-separated values *)

(** [sep.join(d)] *)
Fixpoint str_join (sep : string) (d : list string) : string :=
  match d with
  | [] => ""
  | [x] => x
  | x :: d' => x +:+ sep +:+ str_join sep d'
  end.

(** The scan of [str.split] for a non-empty separator, from left to right:
    [cur] is the piece read since the last separator, [skip] the number of
    characters of a separator just found that are still to be passed over.
    At each position where [sep] starts, the piece ends and the scan resumes
    after the separator. *)
Fixpoint split_scan (sep : string) (skip : nat) (cur : string) (s : string) : list string :=
  match s with
  | "" => [cur]
  | String c s' =>
      match skip with
      | S n => split_scan sep n cur s'
      | 0 =>
          if String.prefix sep s
          then cur :: split_scan sep (String.length sep - 1) "" s'
          else split_scan sep 0 (cur +:+ String c "") s'
      end
  end.

(** [s.split(sep)] *)
Definition str_split (s sep : string) : outcome (list string) :=
  match sep with
  | "" => Raises (Exc ValueError "empty separator")
  | _ => Returns (split_scan sep 0 "" s)
  end.

Definition dsv_of_list (d : list string) (sep : string) : string :=
  str_join sep d.

Definition list_of_dsv (d : string) (sep : string) : outcome (list string) :=
  match d with
  | "" => Returns []
  | _ => str_split d sep
  end.


(** *** [str.format]

    The [format] method of a template, called with positional arguments
    [args] and keyword arguments [kwargs].  The template is read from left to
    right: literal text with the escapes [{{] and [}}], and replacement
    fields [{name!conversion:spec}].  A field is rendered before the text
    after it is looked at, so the first error met is the one raised.  The
    steps for a field are, in this order: the argument the first part of the
    name refers to is looked up, the attribute and item parts of the name are
    followed, the conversion is applied, the fields inside the spec are
    replaced, and the object is formatted with the resulting spec.

    The objects that are formatted are those of a type [V] with the
    operations of [PyObject]; these are taken to return or to raise an
    exception derived from [Exception], and to have no other effect.  Message
    texts are CPython's, the one of [IndexError] being the one quoted in the
    source.  Memory is unbounded. *)

Inductive piece :=
  | Literal (text : string)
  | Field (name : string) (conversion : ascii) (spec : string)
  | Malformed (msg : string).

(** The conversion of a field that has none: the character of code 0. *)
Definition no_conversion : ascii := "000".

(** Where the parser is: in literal text, in a field name outside or inside
    brackets, after the [!] of a conversion, after the conversion character,
    or in a spec, [open] being the number of braces opened in it and not yet
    closed. *)
Inductive parse_mode :=
  | InText (text : string)
  | InName (name : string)
  | InBrackets (name : string)
  | AtConversion (name : string)
  | AfterConversion (name : string) (c : ascii)
  | InSpec (name : string) (conversion : ascii) (spec : string) (open : nat).

Definition snoc_char (s : string) (c : ascii) : string := s +:+ String c "".

Definition literal (text : string) : list piece :=
  match text with
  | "" => []
  | _ => [Literal text]
  end.

Fixpoint parse_format (m : parse_mode) (s : string) : list piece :=
  match s with
  | "" =>
      match m with
      | InText text => literal text
      | InName _ | InBrackets _ => [Malformed "expected '}' before end of string"]
      | AtConversion _ =>
          [Malformed "end of string while looking for conversion specifier"]
      | AfterConversion _ _ | InSpec _ _ _ _ => [Malformed "unmatched '{' in format spec"]
      end
  | String c s' =>
      match m with
      | InText text =>
          if Ascii.eqb c "{" then
            match s' with
            | "" => literal text ++ [Malformed "Single '{' encountered in format string"]
            | String c' s'' =>
                if Ascii.eqb c' "{" then parse_format (InText (snoc_char text "{")) s''
                else literal text ++ parse_format (InName "") s'
            end
          else if Ascii.eqb c "}" then
            match s' with
            | "" => literal text ++ [Malformed "Single '}' encountered in format string"]
            | String c' s'' =>
                if Ascii.eqb c' "}" then parse_format (InText (snoc_char text "}")) s''
                else literal text ++ [Malformed "Single '}' encountered in format string"]
            end
          else parse_format (InText (snoc_char text c)) s'
      | InName name =>
          if Ascii.eqb c "}" then Field name no_conversion "" :: parse_format (InText "") s'
          else if Ascii.eqb c ":" then parse_format (InSpec name no_conversion "" 0) s'
          else if Ascii.eqb c "!" then parse_format (AtConversion name) s'
          else if Ascii.eqb c "{" then [Malformed "unexpected '{' in field name"]
          else if Ascii.eqb c "[" then parse_format (InBrackets (snoc_char name c)) s'
          else parse_format (InName (snoc_char name c)) s'
      | InBrackets name =>
          if Ascii.eqb c "]" then parse_format (InName (snoc_char name c)) s'
          else parse_format (InBrackets (snoc_char name c)) s'
      | AtConversion name => parse_format (AfterConversion name c) s'
      | AfterConversion name conversion =>
          if Ascii.eqb c "}" then Field name conversion "" :: parse_format (InText "") s'
          else if Ascii.eqb c ":" then parse_format (InSpec name conversion "" 0) s'
          else [Malformed "expected ':' after conversion specifier"]
      | InSpec name conversion spec open =>
          if Ascii.eqb c "{" then
            parse_format (InSpec name conversion (snoc_char spec c) (S open)) s'
          else if Ascii.eqb c "}" then
            match open with
            | 0 => Field name conversion spec :: parse_format (InText "") s'
            | S open' => parse_format (InSpec name conversion (snoc_char spec c) open') s'
            end
          else parse_format (InSpec name conversion (snoc_char spec c) open) s'
      end
  end.

(** What the first part of a field name refers to: the next positional
    argument, the positional argument of a given index, or a keyword
    argument. *)
Inductive field_ref :=
  | AutoRef
  | IndexRef (n : N)
  | TooManyDigits
  | KeyRef (name : string).

Definition PY_SSIZE_T_MAX : N := 2 ^ 63 - 1.

Definition digit_value (c : ascii) : option N :=
  if is_digit c then Some (N_of_ascii c - 48)%N else None.

(** [get_integer]: the digits are accumulated from left to right; a character
    that is no digit makes the name a keyword, an index that would exceed
    [PY_SSIZE_T_MAX] is an error. *)
Fixpoint get_integer (name : string) (acc : N) (s : string) : field_ref :=
  match s with
  | "" => IndexRef acc
  | String c s' =>
      match digit_value c with
      | None => KeyRef name
      | Some d =>
          if (PY_SSIZE_T_MAX <? acc * 10 + d)%N then TooManyDigits
          else get_integer name (acc * 10 + d)%N s'
      end
  end.

Definition field_ref_of (name : string) : field_ref :=
  match name with
  | "" => AutoRef
  | _ => get_integer name 0%N name
  end.

(** [field_name_split]: the first part of a field name ends where the first
    [.] or [[] is. *)
Fixpoint field_name_split (first : string) (s : string) : string * string :=
  match s with
  | "" => (first, "")
  | String c s' =>
      if Ascii.eqb c "." || Ascii.eqb c "[" then (first, s)
      else field_name_split (snoc_char first c) s'
  end.

(** The key of an item access [[key]]: a number when it is written with
    digits only. *)
Inductive item_key :=
  | IntKey (n : N)
  | StrKey (s : string).

(** The parts of a field name after the first: [.name] and [[key]].  The
    parts are read one at a time, each after the one before it has been
    followed, so that what is wrong with a part shows only when it is
    reached. *)
Inductive name_step :=
  | GetAttr (name : string)
  | GetItem (key : item_key)
  | BadName (msg : string).

Inductive steps_mode :=
  | AtStep
  | InAttr (name : string)
  | InItem (name : string).

Definition attr_step (name : string) (steps : list name_step) : list name_step :=
  match name with
  | "" => [BadName "Empty attribute in format string"]
  | _ => GetAttr name :: steps
  end.

Definition item_step (name : string) (steps : list name_step) : list name_step :=
  match field_ref_of name with
  | TooManyDigits => [BadName "Too many decimal digits in format string"]
  | AutoRef => [BadName "Empty attribute in format string"]
  | IndexRef n => GetItem (IntKey n) :: steps
  | KeyRef key => GetItem (StrKey key) :: steps
  end.

Fixpoint name_steps (m : steps_mode) (s : string) : list name_step :=
  match s with
  | "" =>
      match m with
      | AtStep => []
      | InAttr name => attr_step name []
      | InItem _ => [BadName "Missing ']' in format string"]
      end
  | String c s' =>
      match m with
      | AtStep =>
          if Ascii.eqb c "." then name_steps (InAttr "") s'
          else if Ascii.eqb c "[" then name_steps (InItem "") s'
          else [BadName "Only '.' or '[' may follow ']' in format field specifier"]
      | InAttr name =>
          if Ascii.eqb c "." then attr_step name (name_steps (InAttr "") s')
          else if Ascii.eqb c "[" then attr_step name (name_steps (InItem "") s')
          else name_steps (InAttr (snoc_char name c)) s'
      | InItem name =>
          if Ascii.eqb c "]" then item_step name (name_steps AtStep s')
          else name_steps (InItem (snoc_char name c)) s'
      end
  end.

(** The state of the automatic numbering of fields. *)
Inductive numbering :=
  | ANS_INIT
  | ANS_AUTO (next : nat)
  | ANS_MANUAL.

Definition index_error : exception := Exc IndexError "tuple index out of range".

(** [c in s] for a character [c]. *)
Fixpoint char_in (c : ascii) (s : string) : bool :=
  match s with
  | "" => false
  | String a s' => Ascii.eqb a c || char_in c s'
  end.

(** **** The format spec of [str] and [int]

    [parse_internal_render_format_spec] reads
    [[[fill]align][sign][z][#][0][width][grouping][.precision][type]]. *)
Record format_spec := {
  spec_fill_char : ascii;
  spec_align : ascii;
  spec_alternate : bool;
  spec_no_neg_0 : bool;
  spec_sign : option ascii;
  spec_width : option N;
  spec_thousands_separators : option ascii;
  spec_precision : option N;
  spec_type : ascii;
}.

Definition is_alignment_token (c : ascii) : bool :=
  Ascii.eqb c "<" || Ascii.eqb c ">" || Ascii.eqb c "=" || Ascii.eqb c "^".

Definition is_sign_element (c : ascii) : bool :=
  Ascii.eqb c " " || Ascii.eqb c "+" || Ascii.eqb c "-".

(** The leading decimal digits of [s] as a number, with the rest of [s];
    [None] when the number would exceed [PY_SSIZE_T_MAX]. *)
Fixpoint read_digits (acc : N) (s : string) : option (N * string) :=
  match s with
  | String c s' =>
      match digit_value c with
      | Some d =>
          if (PY_SSIZE_T_MAX <? acc * 10 + d)%N then None
          else read_digits (acc * 10 + d)%N s'
      | None => Some (acc, s)
      end
  | "" => Some (acc, s)
  end.

Definition too_many_digits : exception :=
  Exc ValueError "Too many decimal digits in format string".

Definition starts_with (p : ascii → bool) (s : string) : bool :=
  match s with
  | String c _ => p c
  | "" => false
  end.

(** The first character of [s] when it is one of those [p] accepts, with what
    follows it. *)
Definition take_if (p : ascii → bool) (s : string) : option ascii * string :=
  match s with
  | String c s' => if p c then (Some c, s') else (None, s)
  | "" => (None, s)
  end.

(** The number a spec gives at its start, if it starts with a digit. *)
Definition read_number (s : string) : outcome (option N * string) :=
  match read_digits 0 s with
  | None => Raises too_many_digits
  | Some (n, rest) => Returns (if starts_with is_digit s then Some n else None, rest)
  end.

(** A character in a message: as it is when it is a printable ASCII one, by
    its code otherwise. *)
Definition hex_digit (n : N) : ascii :=
  ascii_of_N (if (n <? 10)%N then 48 + n else 87 + n).

Definition hex (n : N) : string :=
  if (n <? 16)%N then String (hex_digit n) ""
  else String (hex_digit (n / 16)) (String (hex_digit (n mod 16)) "").

Definition code_in_message (c : ascii) : string :=
  let n := N_of_ascii c in
  if (32 <? n)%N && (n <? 128)%N then String c "" else "\x" +:+ hex n.

Definition fill_align (spec : string) : option ascii * option ascii * string :=
  match spec with
  | String f (String a s') =>
      if is_alignment_token a then (Some f, Some a, s')
      else if is_alignment_token f then (None, Some f, String a s')
      else (None, None, spec)
  | String a "" => if is_alignment_token a then (None, Some a, "") else (None, None, spec)
  | "" => (None, None, spec)
  end.

Definition parse_internal_render_format_spec (type_name : string) (spec : string)
    (default_type default_align : ascii) : outcome format_spec :=
  let '(fill, align, s1) := fill_align spec in
  let '(sign, s2) := take_if is_sign_element s1 in
  let '(z, s3) := take_if (Ascii.eqb "z") s2 in
  let '(alternate, s4) := take_if (Ascii.eqb "#") s3 in
  let '(zero, s5) :=
    match fill with
    | Some _ => (None, s4)
    | None => take_if (Ascii.eqb "0") s4
    end in
  '(width, s6) ← read_number s5;
  let '(comma, s7) := take_if (Ascii.eqb ",") s6 in
  let '(underscore, s8) := take_if (Ascii.eqb "_") s7 in
  if bool_decide (is_Some underscore)
     && (bool_decide (is_Some comma) || starts_with (Ascii.eqb ",") s8)
  then Raises (Exc ValueError "Cannot specify both ',' and '_'.")
  else
    '(precision, s9) ←
      match s8 with
      | String "." s' =>
          '(p, rest) ← read_number s';
          match p with
          | Some _ => Returns (p, rest)
          | None => Raises (Exc ValueError "Format specifier missing precision")
          end
      | _ => Returns (None, s8)
      end;
    type ←
      match s9 with
      | "" => Returns default_type
      | String c "" => Returns c
      | _ => Raises (Exc ValueError ("Invalid format specifier '" +:+ spec +:+
                                     "' for object of type '" +:+ type_name +:+ "'"))
      end;
    let thousands := match underscore with Some c => Some c | None => comma end in
    let fs := {|
      spec_fill_char := match fill, zero with
                        | Some f, _ => f
                        | None, Some _ => "0"
                        | None, None => " "
                        end%char;
      spec_align := match align, zero with
                    | Some a, _ => a
                    | None, Some _ => if Ascii.eqb default_align ">" then "=" else default_align
                    | None, None => default_align
                    end%char;
      spec_alternate := bool_decide (is_Some alternate);
      spec_no_neg_0 := bool_decide (is_Some z);
      spec_sign := sign;
      spec_width := width;
      spec_thousands_separators := thousands;
      spec_precision := precision;
      spec_type := type |} in
    match thousands with
    | None => Returns fs
    | Some sep =>
        if char_in type "defgEG%F" || Ascii.eqb type "000"
           || (Ascii.eqb sep "_" && char_in type "boxX")
        then Returns fs
        else Raises (Exc ValueError ("Cannot specify '" +:+ String sep "" +:+ "' with '"
                                     +:+ code_in_message type +:+ "'."))
    end.

Definition unknown_presentation_type (c : ascii) (type_name : string) : exception :=
  Exc ValueError ("Unknown format code '" +:+ code_in_message c +:+
                  "' for object of type '" +:+ type_name +:+ "'").

Fixpoint repeat_char (c : ascii) (n : nat) : string :=
  match n with
  | 0 => ""
  | S n' => String c (repeat_char c n')
  end.

Fixpoint truncate (n : nat) (s : string) : string :=
  match n, s with
  | S n', String c s' => String c (truncate n' s')
  | _, _ => ""
  end.

(** [format_string_internal] *)
Definition format_string_internal (s : string) (fs : format_spec) : outcome string :=
  match spec_sign fs with
  | Some c =>
      if Ascii.eqb c " "
      then Raises (Exc ValueError "Space not allowed in string format specifier")
      else Raises (Exc ValueError "Sign not allowed in string format specifier")
  | None =>
      if spec_no_neg_0 fs
      then Raises (Exc ValueError
             "Negative zero coercion (z) not allowed in string format specifier")
      else if spec_alternate fs
      then Raises (Exc ValueError "Alternate form (#) not allowed in string format specifier")
      else if Ascii.eqb (spec_align fs) "="
      then Raises (Exc ValueError "'=' alignment not allowed in string format specifier")
      else
        let body :=
          match spec_precision fs with
          | Some p => if (p <? N.of_nat (String.length s))%N then truncate (N.to_nat p) s else s
          | None => s
          end in
        let n := N.to_nat (default 0%N (spec_width fs)) - String.length body in
        let lpad :=
          if Ascii.eqb (spec_align fs) ">" then n
          else if Ascii.eqb (spec_align fs) "^" then n / 2
          else 0 in
        Returns (repeat_char (spec_fill_char fs) lpad +:+ body +:+
                 repeat_char (spec_fill_char fs) (n - lpad))
  end.

(** [format(s, spec)] for a [str] [s]. *)
Definition format_str (s : string) (spec : string) : outcome string :=
  match spec with
  | "" => Returns s
  | _ =>
      fs ← parse_internal_render_format_spec "str" spec "s" "<";
      if Ascii.eqb (spec_type fs) "s" then format_string_internal s fs
      else Raises (unknown_presentation_type (spec_type fs) "str")
  end.

(** [format_long_internal], for the presentation type [d] without grouping;
    [None] for the other presentation types of integers and for a grouping
    option. *)
Definition format_long_internal (z : Z) (fs : format_spec) : option (outcome string) :=
  if bool_decide (is_Some (spec_precision fs))
  then Some (Raises (Exc ValueError "Precision not allowed in integer format specifier"))
  else if spec_no_neg_0 fs
  then Some (Raises (Exc ValueError
               "Negative zero coercion (z) not allowed in integer format specifier"))
  else if Ascii.eqb (spec_type fs) "d" && bool_decide (spec_thousands_separators fs = None)
  then
    let sign :=
      if (z <? 0)%Z then "-"
      else match spec_sign fs with
           | Some c => if Ascii.eqb c "-" then "" else String c ""
           | None => ""
           end in
    let digits := pretty (Z.abs z) in
    let n := N.to_nat (default 0%N (spec_width fs))
             - (String.length sign + String.length digits) in
    let fill := repeat_char (spec_fill_char fs) in
    let a := spec_align fs in
    Some (Returns (
      if Ascii.eqb a "<" then sign +:+ digits +:+ fill n
      else if Ascii.eqb a "^" then fill (n / 2) +:+ sign +:+ digits +:+ fill (n - n / 2)
      else if Ascii.eqb a "=" then sign +:+ fill n +:+ digits
      else fill n +:+ sign +:+ digits))
  else None.

(** [format(z, spec)] for an [int] [z]; [None] where the result is outside
    what is modelled of integers. *)
Definition format_int (z : Z) (spec : string) : option (outcome string) :=
  match spec with
  | "" => Some (Returns (pretty z))
  | _ =>
      match parse_internal_render_format_spec "int" spec "d" ">" with
      | Raises e => Some (Raises e)
      | Returns fs =>
          if char_in (spec_type fs) "bcdoxXneEfFgG%" then format_long_internal z fs
          else Some (Raises (unknown_presentation_type (spec_type fs) "int"))
      end
  end.

(** [repr(s)] and [ascii(s)] for a [str] [s]. *)
Definition is_printable (n : N) : bool :=
  ((32 <=? n) && (n <? 127) || (161 <=? n) && negb (n =? 173))%N.

Definition repr_char (quote : ascii) (only_ascii : bool) (c : ascii) : string :=
  let n := N_of_ascii c in
  if Ascii.eqb c quote || Ascii.eqb c "\" then String "\" (String c "")
  else if (n =? 9)%N then "\t"
  else if (n =? 10)%N then "\n"
  else if (n =? 13)%N then "\r"
  else if is_printable n && negb (only_ascii && (127 <? n)%N) then String c ""
  else "\x" +:+ (if (n <? 16)%N then "0" else "") +:+ hex n.

Fixpoint repr_chars (quote : ascii) (only_ascii : bool) (s : string) : string :=
  match s with
  | "" => ""
  | String c s' => repr_char quote only_ascii c +:+ repr_chars quote only_ascii s'
  end.

Definition double_quote : ascii := ascii_of_N 34.

Definition quoted (only_ascii : bool) (s : string) : string :=
  let quote := if char_in "'" s && negb (char_in double_quote s) then double_quote else "'"%char in
  String quote (repr_chars quote only_ascii s) +:+ String quote "".

Definition repr_str (s : string) : string := quoted false s.

Definition ascii_str (s : string) : string := quoted true s.

(** **** Objects

    What [str.format] asks of the objects it is given: [format(v, spec)],
    [repr(v)], [str(v)], [ascii(v)], [getattr(v, name)] and [v[key]]. *)
Class PyObject (V : Type) := {
  py_format : V → string → outcome string;
  py_repr : V → outcome string;
  py_str : V → outcome string;
  py_ascii : V → outcome string;
  py_getattr : V → string → outcome V;
  py_getitem : V → item_key → outcome V;
}.

(** What is formatted: the object a field name refers to, or the [str] a
    conversion has made of it. *)
Inductive formatted (V : Type) :=
  | Object (v : V)
  | Text (s : string).
Arguments Object {V} v.
Arguments Text {V} s.

Section str_format.
Context {V : Type} `{PyObject V}.

Definition positional (args : list V) (i : nat) : outcome V :=
  match args !! i with
  | Some v => Returns v
  | None => Raises index_error
  end.

(** The argument the first part of a field name refers to. *)
Definition get_argument (args : list V) (kwargs : gmap string V) (st : numbering)
    (first : string) : outcome (V * numbering) :=
  match field_ref_of first with
  | AutoRef =>
      match st with
      | ANS_MANUAL =>
          Raises (Exc ValueError
            "cannot switch from manual field specification to automatic field numbering")
      | ANS_INIT => v ← positional args 0; mret (v, ANS_AUTO 1)
      | ANS_AUTO i => v ← positional args i; mret (v, ANS_AUTO (S i))
      end
  | TooManyDigits => Raises too_many_digits
  | IndexRef n =>
      match st with
      | ANS_AUTO _ =>
          Raises (Exc ValueError
            "cannot switch from automatic field numbering to manual field specification")
      | _ =>
          v ← (if (n <? N.of_nat (length args))%N then positional args (N.to_nat n)
               else Raises index_error);
          mret (v, ANS_MANUAL)
      end
  | KeyRef key =>
      match kwargs !! key with
      | Some v => Returns (v, st)
      | None => Raises (Exc KeyError key)
      end
  end.

Fixpoint follow (obj : V) (steps : list name_step) : outcome V :=
  match steps with
  | [] => Returns obj
  | GetAttr name :: steps' => obj' ← py_getattr obj name; follow obj' steps'
  | GetItem key :: steps' => obj' ← py_getitem obj key; follow obj' steps'
  | BadName msg :: _ => Raises (Exc ValueError msg)
  end.

Definition get_field_object (args : list V) (kwargs : gmap string V) (st : numbering)
    (name : string) : outcome (V * numbering) :=
  let '(first, rest) := field_name_split "" name in
  '(obj, st') ← get_argument args kwargs st first;
  obj' ← follow obj (name_steps AtStep rest);
  mret (obj', st').

Definition do_conversion (obj : V) (conversion : ascii) : outcome (formatted V) :=
  if Ascii.eqb conversion no_conversion then Returns (Object obj)
  else if Ascii.eqb conversion "r" then s ← py_repr obj; mret (Text s)
  else if Ascii.eqb conversion "s" then s ← py_str obj; mret (Text s)
  else if Ascii.eqb conversion "a" then s ← py_ascii obj; mret (Text s)
  else
    let n := N_of_ascii conversion in
    Raises (Exc ValueError ("Unknown conversion specifier " +:+
      (if (32 <? n)%N && (n <? 127)%N then String conversion "" else "\x" +:+ hex n))).

Definition render_field (obj : formatted V) (spec : string) : outcome string :=
  match obj with
  | Object v => py_format v spec
  | Text s => format_str s spec
  end.

(** [do_markup]: the pieces of a template in turn; [expand] is [build_string]
    for the fields inside a spec. *)
Fixpoint do_markup (expand : string → numbering → outcome (string * numbering))
    (args : list V) (kwargs : gmap string V) (ps : list piece) (st : numbering)
    : outcome (string * numbering) :=
  match ps with
  | [] => Returns ("", st)
  | Literal text :: ps' =>
      '(rest, st') ← do_markup expand args kwargs ps' st;
      mret (text +:+ rest, st')
  | Malformed msg :: _ => Raises (Exc ValueError msg)
  | Field name conversion spec :: ps' =>
      '(obj, st1) ← get_field_object args kwargs st name;
      obj' ← do_conversion obj conversion;
      '(spec', st2) ← (if char_in "{" spec then expand spec st1 else Returns (spec, st1));
      s ← render_field obj' spec';
      '(rest, st3) ← do_markup expand args kwargs ps' st2;
      mret (s +:+ rest, st3)
  end.

(** [build_string], [recursion_depth] being 2 for the template and one less
    for the spec of a field. *)
Fixpoint build_string (recursion_depth : nat) (args : list V) (kwargs : gmap string V)
    (template : string) (st : numbering) : outcome (string * numbering) :=
  match recursion_depth with
  | 0 => Raises (Exc ValueError "Max string recursion exceeded")
  | S depth =>
      do_markup (build_string depth args kwargs) args kwargs
        (parse_format (InText "") template) st
  end.

Definition str_format (template : string) (args : list V) (kwargs : gmap string V)
    : outcome string :=
  '(s, _) ← build_string 2 args kwargs template ANS_INIT; mret s.

Definition str_of_tuple (t : list V) (str_format_ : string) : outcome string :=
  try_except (str_format str_format_ t ∅) (λ e, Raises (ExcOf KeyValidationError e)).

Definition str_of_dict (d : gmap string V) (str_format_ : string) : outcome string :=
  try_except (str_format str_format_ [] d) (λ e, Raises (ExcOf KeyValidationError e)).

End str_format.

(** *** Values: [int] and [str]

    The objects of the examples.  What is not modelled of them is given by a
    [world]: the attributes of an [int] or a [str] and, for an [int], what
    formatting returns for the presentation types other than [d] and for the
    grouping options. *)
Inductive pyval :=
  | PyInt (z : Z)
  | PyStr (s : string).

Record world := {
  int_format : Z → string → outcome string;
  attribute : pyval → string → outcome pyval;
}.

Fixpoint nth_char (n : nat) (s : string) : option ascii :=
  match s, n with
  | "", _ => None
  | String c _, 0 => Some c
  | String _ s', S n' => nth_char n' s'
  end.

Definition pyval_object (w : world) : PyObject pyval := {|
  py_format v spec :=
    match v with
    | PyStr s => format_str s spec
    | PyInt z => default (int_format w z spec) (format_int z spec)
    end;
  py_repr v :=
    match v with
    | PyStr s => Returns (repr_str s)
    | PyInt z => Returns (pretty z)
    end;
  py_str v :=
    match v with
    | PyStr s => Returns s
    | PyInt z => Returns (pretty z)
    end;
  py_ascii v :=
    match v with
    | PyStr s => Returns (ascii_str s)
    | PyInt z => Returns (pretty z)
    end;
  py_getattr := attribute w;
  py_getitem v key :=
    match v with
    | PyInt _ => Raises (Exc TypeError "'int' object is not subscriptable")
    | PyStr s =>
        match key with
        | StrKey _ => Raises (Exc TypeError "string indices must be integers, not 'str'")
        | IntKey n =>
            if (n <? N.of_nat (String.length s))%N
            then match nth_char (N.to_nat n) s with
                 | Some c => Returns (PyStr (String c ""))
                 | None => Raises (Exc IndexError "string index out of range")
                 end
            else Raises (Exc IndexError "string index out of range")
        end
    end;
|}.

(** A statement about [int] and [str] values that holds whatever the world
    is, that is, whatever the operations that are not modelled do. *)
Definition in_every_world (P : PyObject pyval → Prop) : Prop :=
  ∀ w : world, P (pyval_object w).

(** *** _check_methods and the subclass hooks (base.py) *)

(** A class, as [_check_methods] looks at it, is its [__dict__]: the names it
    defines, each with [None] (Python's [None]) or with some other value.
    [C.__mro__] is the list of these, [C] first. *)
Section check_methods.
Context {A : Type}.

Inductive check_result :=
  | CheckTrue
  | NotImplemented.

(** The loop [for B in mro] for one [method]: [true] when it is left by
    [break], [false] when it is left by [return NotImplemented], be it at a
    [None] entry or in the [else] clause of the loop. *)
Fixpoint method_found (mro : list (gmap string (option A))) (method : string) : bool :=
  match mro with
  | [] => false
  | B :: mro' =>
      match B !! method with
      | Some None => false
      | Some (Some _) => true
      | None => method_found mro' method
      end
  end.

Fixpoint _check_methods (mro : list (gmap string (option A))) (methods : list string)
    : check_result :=
  match methods with
  | [] => CheckTrue
  | method :: methods' =>
      if method_found mro method then _check_methods mro methods' else NotImplemented
  end.

(** [AbstractObjReader.__subclasshook__(cls, C)]; [cls_is_abc] is the test
    [cls is AbstractObjReader]. *)
Definition ObjReader_subclasshook (cls_is_abc : bool) (mro : list (gmap string (option A)))
    : check_result :=
  if cls_is_abc then _check_methods mro ["__getitem__"] else NotImplemented.

(** [AbstractObjWriter.__subclasshook__(cls, C)] *)
Definition ObjWriter_subclasshook (cls_is_abc : bool) (mro : list (gmap string (option A)))
    : check_result :=
  if cls_is_abc then _check_methods mro ["__setitem__"; "__delitem__"] else NotImplemented.

(** The class that decides for [method]: the first one of [mro] whose
    [__dict__] has the name. *)
Definition decided_by (mro : list (gmap string (option A))) (method : string)
    (B : gmap string (option A)) : Prop :=
  ∃ pre post, mro = pre ++ B :: post
              ∧ Forall (λ B', B' !! method = None) pre
              ∧ is_Some (B !! method).

End check_methods.

(** *** Predicates used in the statements *)

(** What a template asks of the arguments: for each field, in the order of
    the fields, the positional argument of index [i] or the keyword argument
    [key] the first part of its name refers to.  [plain] is the spec of the
    field when the argument itself is formatted with it: when the name has no
    attribute or item part, the field has no conversion and the spec has no
    field of its own. *)
Inductive request :=
  | Positional (i : N) (plain : option string)
  | Keyword (key : string) (plain : option string).

Definition argument_request (st : numbering) (first : string) (plain : option string)
    : list request * numbering :=
  match field_ref_of first with
  | AutoRef =>
      match st with
      | ANS_MANUAL => ([], st)
      | ANS_INIT => ([Positional 0 plain], ANS_AUTO 1)
      | ANS_AUTO i => ([Positional (N.of_nat i) plain], ANS_AUTO (S i))
      end
  | TooManyDigits => ([], st)
  | IndexRef n =>
      match st with
      | ANS_AUTO _ => ([], st)
      | _ => ([Positional n plain], ANS_MANUAL)
      end
  | KeyRef key => ([Keyword key plain], st)
  end.

(** The requests of the pieces of a template, with the state of the numbering
    after them; [expand] gives those of the fields inside a spec. *)
Fixpoint requests_of (expand : string → numbering → list request * numbering)
    (ps : list piece) (st : numbering) : list request * numbering :=
  match ps with
  | [] => ([], st)
  | Field name conversion spec :: ps' =>
      let '(first, rest) := field_name_split "" name in
      let plain :=
        match rest with
        | "" =>
            if Ascii.eqb conversion no_conversion && negb (char_in "{" spec)
            then Some spec else None
        | _ => None
        end in
      let '(asked, st1) := argument_request st first plain in
      let '(inner, st2) := if char_in "{" spec then expand spec st1 else ([], st1) in
      let '(later, st3) := requests_of expand ps' st2 in
      (asked ++ inner ++ later, st3)
  | _ :: ps' => requests_of expand ps' st
  end.

Fixpoint requests (recursion_depth : nat) (template : string) (st : numbering)
    : list request * numbering :=
  match recursion_depth with
  | 0 => ([], st)
  | S depth => requests_of (requests depth) (parse_format (InText "") template) st
  end.

Definition requested (template : string) : list request :=
  (requests 2 template ANS_INIT).1.

(** The number of positional arguments a template asks for: one more than
    the greatest index it asks for, [0] when it asks for none. *)
Definition positional_bound (reqs : list request) : N :=
  foldr (λ r n, match r with Positional i _ => N.max (i + 1) n | Keyword _ _ => n end)
        0%N reqs.

Definition positional_needed (template : string) : N :=
  positional_bound (requested template).

(** The names of the keyword arguments a template asks for. *)
Definition keywords (reqs : list request) : list string :=
  omap (λ r, match r with Keyword key _ => Some key | Positional _ _ => None end) reqs.

Definition named_placeholders (template : string) : list string :=
  keywords (requested template).

(** The indices of the positional arguments a template asks for, one for
    each positional placeholder. *)
Definition positionals (reqs : list request) : list N :=
  omap (λ r, match r with Positional i _ => Some i | Keyword _ _ => None end) reqs.

Definition positional_placeholders (template : string) : nat :=
  length (positionals (requested template)).

(** The argument a request refers to. *)
Definition argument_of {V} (args : list V) (kwargs : gmap string V) (r : request)
    : option V :=
  match r with
  | Positional i _ => args !! N.to_nat i
  | Keyword key _ => kwargs !! key
  end.

Definition plain_spec (r : request) : option string :=
  match r with
  | Positional _ plain | Keyword _ plain => plain
  end.

(** A request is satisfied when the argument it refers to is there and,
    where the argument itself is formatted, accepts the spec. *)
Definition satisfied {V} `{PyObject V} (args : list V) (kwargs : gmap string V)
    (r : request) : Prop :=
  ∃ v, argument_of args kwargs r = Some v
       ∧ ∀ spec, plain_spec r = Some spec → ∃ s, py_format v spec = Returns s.

(** A string without [{] and without [}]. *)
Definition brace_free (s : string) : Prop :=
  char_in "{" s = false ∧ char_in "}" s = false.

(** The template [lit {} lit {} ... lit {} last]. *)
Fixpoint with_placeholders (lits : list string) (last : string) : string :=
  match lits with
  | [] => last
  | lit :: lits' => lit +:+ "{}" +:+ with_placeholders lits' last
  end.



(** The texts [ws] in the places of the placeholders. *)
Fixpoint populated (lits : list string) (ws : list string) (last : string) : string :=
  match lits, ws with
  | lit :: lits', w :: ws' => lit +:+ w +:+ populated lits' ws' last
  | _, _ => last
  end.

(** [sep in s] for strings. *)
Definition occurs_in (sep s : string) : Prop :=
  ∃ pre post, s = pre +:+ sep +:+ post.

(** In the scan of a split, no separator starts inside the piece [cur] read
    so far, [s] being the text still to be read. *)
Definition no_sep_inside (sep cur s : string) : Prop :=
  ∀ a b, cur = a +:+ b → b ≠ "" → String.prefix sep (b +:+ s) = false.

(** What [dsv_of_list] is given: a list or a tuple of strings.  Joining
    reads its items only; [items_of] is what iterating over it yields. *)
Inductive sequence :=
  | PyList (items : list string)
  | PyTuple (items : list string).

Definition items_of (seq : sequence) : list string :=
  match seq with
  | PyList items | PyTuple items => items
  end.

(** [l == seq] for a list [l]: a list is equal to the list of the same items,
    and to no tuple. *)
Definition list_equals (l : list string) (seq : sequence) : Prop :=
  seq = PyList l.

(** [sep] starts at one of the positions of [x] in [x + tail]. *)
Fixpoint sep_starts_inside (sep x tail : string) : bool :=
  match x with
  | "" => false
  | String _ x' => String.prefix sep (x +:+ tail) || sep_starts_inside sep x' tail
  end.

(** In the joined string, [sep] starts nowhere but at the joins: it does not
    occur in the last item, and in [x + sep], for an item [x] before the
    last, it occurs at the end only. *)
Fixpoint delimited (sep : string) (d : list string) : bool :=
  match d with
  | [] => true
  | [x] => negb (sep_starts_inside sep x "")
  | x :: d' => negb (sep_starts_inside sep x sep) && delimited sep d'
  end.

(** * Properties *)

(** ** base.py *)

Section abstract_keys_correct.
Context {C K : Type} `{AbstractKeys C K}.

Lemma len_loop_length (count : nat) (keys : list K) :
  len_loop count keys = count + length keys.
Proof.
  revert count. induction keys as [|k keys IH]; intros count; simpl.
  - lia.
  - rewrite IH. lia.
Qed.

Lemma contains_loop_true (k : K) (keys : list K) :
  contains_loop k keys = true ↔ ∃ x, x ∈ keys ∧ key_eq x k = true.
Proof.
  induction keys as [|x keys IH]; simpl.
  - split; [done|]. intros (x & Hx & _). by apply elem_of_nil in Hx.
  - destruct (key_eq x k) eqn:Hxk.
    + split; [|done]. intros _. exists x. split; [left|done].
    + rewrite IH. split.
      * intros (y & Hy & Hyk). exists y. split; [by right|done].
      * intros (y & Hy & Hyk). apply elem_of_cons in Hy as [->|Hy]; [congruence|].
        by exists y.
Qed.

(** C1: the derived [__contains__] answers [True] exactly when one of the
    keys yielded by a full iteration equals [k], and the derived [__len__] is
    the number of keys a full iteration yields. *)
Theorem derived_contains_len (self : C) (k : K) :
  (__contains__ self k = true ↔ ∃ x, x ∈ __iter__ self ∧ key_eq x k = true)
  ∧ __len__ self = length (__iter__ self).
Proof.
  split.
  - apply contains_loop_true.
  - unfold __len__. by rewrite len_loop_length.
Qed.

End abstract_keys_correct.

(** C2: [clear], on any store and in any backend state, raises
    [NotImplementedError] and leaves the backend state as it was; so it does
    on an empty dict-backed store. *)
Theorem clear_unsupported {S K V : Type} `{!AbstractObjStore S K V} (self : S) :
  clear self
  = (Raises (Exc NotImplementedError
       "clear method was removed from MutableMapping subclass for safety reasons"),
     self)
  ∧ ∃ e, clear (∅ : gmap string V) = (Raises e, ∅) ∧ class_of e = NotImplementedError.
Proof. split; [reflexivity|]. eexists. split; reflexivity. Qed.

(** ** key_mappers/tuples.py: tuples and dicts *)

Section tuples_and_dicts_correct.
Context {K V : Type} `{Countable K} `{KeyArg K}.

Lemma assert_condition_true (msg : string) {A} (k : outcome A) :
  (__assert_condition true msg;; k) = k.
Proof. reflexivity. Qed.

Lemma assert_condition_false (msg : string) {A} (k : outcome A) :
  (__assert_condition false msg;; k) = Raises (Exc KeyValidationError msg).
Proof. reflexivity. Qed.

Lemma bind_returns {A B} (a : A) (k : A → outcome B) : Returns a ≫= k = k a.
Proof. reflexivity. Qed.

Lemma bind_raises {A B} (e : exception) (k : A → outcome B) :
  Raises e ≫= k = Raises e.
Proof. reflexivity. Qed.

Lemma getitem_Some (d : gmap K V) (f : K) (v : V) :
  d !! f = Some v → getitem d f = Returns v.
Proof. unfold getitem. by intros ->. Qed.

Lemma getitem_None (d : gmap K V) (f : K) :
  d !! f = None → getitem d f = Raises (Exc KeyError (key_arg f)).
Proof. unfold getitem. by intros ->. Qed.

Lemma traverse_getitem (d : gmap K V) (fields : list K) (t : list V) :
  Forall2 (λ f v, d !! f = Some v) fields t →
  traverse (getitem d) fields = Returns t.
Proof.
  induction 1 as [|f v fields t Hf _ IH]; simpl; [done|].
  rewrite (getitem_Some _ _ _ Hf), bind_returns, IH. reflexivity.
Qed.

Lemma traverse_getitem_missing (d : gmap K V) (fields : list K) :
  ¬ Forall (λ f, is_Some (d !! f)) fields →
  ∃ f, f ∈ fields ∧ d !! f = None
       ∧ traverse (getitem d) fields = Raises (Exc KeyError (key_arg f)).
Proof.
  induction fields as [|f fields IH]; intros Hnot.
  - destruct Hnot. constructor.
  - simpl. destruct (d !! f) as [v|] eqn:Hf.
    + destruct IH as (g & Hg & Hdg & Htr).
      { intros Hall. apply Hnot. constructor; [by eexists|done]. }
      exists g. split; [by right|]. split; [done|].
      by rewrite (getitem_Some _ _ _ Hf), bind_returns, Htr.
    + exists f. split; [left|]. split; [done|].
      by rewrite (getitem_None _ _ Hf).
Qed.

Lemma dict_comprehension_acc_notin (acc : gmap K V) (fields : list K) (t : list V) (k : K) :
  k ∉ fields →
  foldl (λ d '(f, x), <[f:=x]> d) acc (zip fields t) !! k = acc !! k.
Proof.
  revert acc t. induction fields as [|f fields IH]; intros acc [|v t] Hk; simpl; try done.
  apply not_elem_of_cons in Hk as [Hkf Hk].
  rewrite IH by done. by rewrite lookup_insert_ne.
Qed.

Lemma dict_comprehension_acc_restores (d acc : gmap K V) (fields : list K) (t : list V) (k : K) :
  Forall2 (λ f v, d !! f = Some v) fields t →
  k ∈ fields →
  foldl (λ d '(f, x), <[f:=x]> d) acc (zip fields t) !! k = d !! k.
Proof.
  intros Hall. revert acc. induction Hall as [|f v fields t Hf Hall IH]; intros acc Hk.
  - by apply elem_of_nil in Hk.
  - simpl. destruct (decide (k ∈ fields)) as [Hin|Hnotin].
    + by apply IH.
    + apply elem_of_cons in Hk as [->|Hk]; [|done].
      rewrite dict_comprehension_acc_notin by done.
      by rewrite lookup_insert_eq.
Qed.

Lemma dict_comprehension_acc_nodup (acc : gmap K V) (fields : list K) (t : list V) :
  NoDup fields → length fields = length t →
  Forall2 (λ f v, foldl (λ d '(f, x), <[f:=x]> d) acc (zip fields t) !! f = Some v) fields t.
Proof.
  intros Hnd. revert acc t.
  induction Hnd as [|f fields Hf Hnd IH]; intros acc [|v t] Hlen; simplify_eq/=.
  - constructor.
  - constructor; [|by apply IH].
    rewrite dict_comprehension_acc_notin by done. by rewrite lookup_insert_eq.
Qed.

Lemma dict_comprehension_acc_size (acc : gmap K V) (fields : list K) (t : list V) :
  NoDup fields → length fields = length t →
  (∀ f, f ∈ fields → acc !! f = None) →
  size (foldl (λ d '(f, x), <[f:=x]> d) acc (zip fields t)) = size acc + length fields.
Proof.
  intros Hnd. revert acc t.
  induction Hnd as [|f fields Hf Hnd IH]; intros acc [|v t] Hlen Hfresh; simplify_eq/=.
  - lia.
  - rewrite IH; [|done|].
    + rewrite map_size_insert_None; [lia|]. apply Hfresh. left.
    + intros g Hg. rewrite lookup_insert_ne; [|by intros ->].
      apply Hfresh. by right.
Qed.

End tuples_and_dicts_correct.

(** C3: when [fields] is a permutation of the keys of [d], turning [d] into a
    tuple and the tuple back into a dict gives [d]. *)
Theorem dict_of_tuple_of_dict {K V : Type} `{Countable K} `{KeyArg K}
    (d : gmap K V) (fields : list K) :
  fields ≡ₚ elements (dom d) →
  tuple_of_dict d fields ≫= (λ t, dict_of_tuple t fields) = Returns d.
Proof.
  intros Hperm.
  assert (Hlen : length fields = size d).
  { rewrite <- size_dom. unfold size, set_size. simpl. by rewrite Hperm. }
  assert (Hkeys : ∀ f, f ∈ fields ↔ is_Some (d !! f)).
  { intros f. by rewrite Hperm, elem_of_elements, elem_of_dom. }
  assert (∃ t, Forall2 (λ f v, d !! f = Some v) fields t) as [t Ht].
  { assert (Forall (λ f, is_Some (d !! f)) fields) as Hall.
    { apply Forall_forall. intros f. apply Hkeys. }
    clear -Hall. induction Hall as [|f fields [v Hv] _ [t Ht]].
    - exists []. constructor.
    - exists (v :: t). by constructor. }
  unfold tuple_of_dict. rewrite bool_decide_true by done.
  rewrite assert_condition_true, (traverse_getitem _ _ _ Ht), bind_returns.
  unfold dict_of_tuple. rewrite bool_decide_true by (by apply Forall2_length in Ht).
  rewrite assert_condition_true. unfold mret, outcome_ret. f_equal.
  apply map_eq. intros k. unfold dict_comprehension.
  destruct (decide (k ∈ fields)) as [Hin|Hnotin].
  - by apply dict_comprehension_acc_restores.
  - rewrite dict_comprehension_acc_notin by done. rewrite lookup_empty.
    symmetry. apply eq_None_not_Some. by rewrite <- Hkeys.
Qed.

Lemma dict_of_tuple_of_dict_witness :
  tuple_of_dict ({["a" := 1; "b" := 2]} : gmap string nat) ["b"; "a"]
    ≫= (λ t, dict_of_tuple t ["b"; "a"])
  = Returns {["a" := 1; "b" := 2]}.
Proof.
  apply (dict_of_tuple_of_dict ({["a" := 1; "b" := 2]} : gmap string nat) ["b"; "a"]).
  vm_compute. apply perm_swap.
Defined.

(** C4, as amended: for a field list without repetition and of the length of
    [t], turning [t] into a dict and the dict back into a tuple gives [t]. *)
Theorem tuple_of_dict_of_tuple {K V : Type} `{Countable K} `{KeyArg K}
    (t : list V) (fields : list K) :
  NoDup fields → length fields = length t →
  dict_of_tuple t fields ≫= (λ d, tuple_of_dict d fields) = Returns t.
Proof.
  intros Hnd Hlen. unfold dict_of_tuple.
  rewrite bool_decide_true by done. rewrite assert_condition_true.
  unfold mret, outcome_ret. rewrite bind_returns.
  unfold tuple_of_dict, dict_comprehension.
  rewrite bool_decide_true.
  - rewrite assert_condition_true. apply traverse_getitem.
    by apply dict_comprehension_acc_nodup.
  - rewrite dict_comprehension_acc_size; [|done..].
    by rewrite map_size_empty.
Qed.

Lemma tuple_of_dict_of_tuple_witness :
  dict_of_tuple [1; 2; 3] ["c"; "b"; "a"] ≫= (λ d, tuple_of_dict d ["c"; "b"; "a"])
  = Returns [1; 2; 3].
Proof.
  apply (tuple_of_dict_of_tuple [1; 2; 3] ["c"; "b"; "a"]).
  - apply (bool_decide_unpack (NoDup ["c"; "b"; "a"])). vm_compute. exact I.
  - reflexivity.
Defined.

(** C4, as stated, fails for a field list with a repeated name: the dict has
    fewer items than the field list, and the way back is refused. *)
Lemma tuple_of_dict_of_tuple_repeated_field :
  ¬ (length ["a"; "a"] = length [1; 2] →
     dict_of_tuple [1; 2] ["a"; "a"] ≫= (λ d, tuple_of_dict d ["a"; "a"])
     = Returns [1; 2]).
Proof. intros Hclaim. specialize (Hclaim eq_refl). vm_compute in Hclaim. discriminate. Qed.

(** C6: [tuple_of_dict] raises [KeyValidationError] when the number of fields
    differs from the number of items of [d], and [dict_of_tuple] when it
    differs from the length of [t]; so does
    [tuple_of_dict({'a': 1, 'b': 2}, ['a'])]. *)
Theorem arity_enforced {K V : Type} `{Countable K} `{KeyArg K}
    (d : gmap K V) (t : list V) (fields : list K) :
  (length fields ≠ size d →
   ∃ msg, tuple_of_dict d fields = Raises (Exc KeyValidationError msg))
  ∧ (length fields ≠ length t →
     ∃ msg, dict_of_tuple t fields = Raises (Exc KeyValidationError msg))
  ∧ tuple_of_dict ({["a" := 1; "b" := 2]} : gmap string nat) ["a"]
    = Raises (Exc KeyValidationError "len(d)=2 but len(fields)=1").
Proof.
  split; [|split].
  - intros Hne. unfold tuple_of_dict. rewrite bool_decide_false by done.
    rewrite assert_condition_false. by eexists.
  - intros Hne. unfold dict_of_tuple. rewrite bool_decide_false by done.
    rewrite assert_condition_false. by eexists.
  - by vm_compute.
Qed.

Lemma arity_enforced_witness :
  (∃ msg, tuple_of_dict ({["a" := 1; "b" := 2; "c" := 3]} : gmap string nat) ["a"; "b"]
          = Raises (Exc KeyValidationError msg))
  ∧ (∃ msg, dict_of_tuple [1; 2; 3] ["c"; "b"]
            = Raises (Exc KeyValidationError msg)).
Proof.
  destruct (arity_enforced ({["a" := 1; "b" := 2; "c" := 3]} : gmap string nat)
              [1; 2; 3] ["a"; "b"]) as (Hd & _).
  destruct (arity_enforced (∅ : gmap string nat) [1; 2; 3] ["c"; "b"]) as (_ & Ht & _).
  split.
  - apply Hd. vm_compute. lia.
  - apply Ht. simpl. lia.
Defined.

(** A field list of the right length that names a key [d] does not have gets
    past the arity check; the lookup then raises [KeyError]. *)
Lemma tuple_of_dict_missing_key {K V : Type} `{Countable K} `{KeyArg K}
    (d : gmap K V) (fields : list K) :
  length fields = size d →
  ¬ Forall (λ f, is_Some (d !! f)) fields →
  ∃ f, f ∈ fields ∧ d !! f = None
       ∧ tuple_of_dict d fields = Raises (Exc KeyError (key_arg f)).
Proof.
  intros Hlen Hnot. destruct (traverse_getitem_missing d fields Hnot) as (f & Hf & Hdf & Htr).
  exists f. split; [done|]. split; [done|].
  unfold tuple_of_dict. rewrite bool_decide_true by done.
  by rewrite assert_condition_true.
Qed.

(** C10: on [{'a': 1, 'b': 2}] and the fields ['a', 'c'], which are as many
    as the dict has items, [tuple_of_dict] raises [KeyError], which is not the
    [KeyValidationError] its callers are to catch. *)
Theorem tuple_of_dict_raises_KeyError :
  length ["a"; "c"] = size ({["a" := 1; "b" := 2]} : gmap string nat)
  ∧ tuple_of_dict ({["a" := 1; "b" := 2]} : gmap string nat) ["a"; "c"]
    = Raises (Exc KeyError "c")
  ∧ raises_class
      (tuple_of_dict ({["a" := 1; "b" := 2]} : gmap string nat) ["a"; "c"])
      KeyError.
Proof.
  split; [by vm_compute|]. split; [by vm_compute|].
  eexists. split; [by vm_compute|reflexivity].
Qed.

(** ** key_mappers/tuples.py: delimiter-separated values *)

Lemma string_app_empty (s : string) : "" +:+ s = s.
Proof. reflexivity. Qed.

Lemma string_app_String (a : ascii) (s1 s2 : string) :
  String a s1 +:+ s2 = String a (s1 +:+ s2).
Proof. reflexivity. Qed.

Lemma string_app_assoc (s1 s2 s3 : string) : (s1 +:+ s2) +:+ s3 = s1 +:+ s2 +:+ s3.
Proof.
  induction s1 as [|a s1 IH]; [done|].
  by rewrite !string_app_String, IH.
Qed.

Lemma string_app_nil_r (s : string) : s +:+ "" = s.
Proof.
  induction s as [|a s IH]; [done|].
  by rewrite string_app_String, IH.
Qed.

Lemma prefix_app (s rest : string) : String.prefix s (s +:+ rest) = true.
Proof.
  induction s as [|a s IH]; [by destruct rest|].
  rewrite string_app_String. simpl.
  destruct (ascii_dec a a); [done|congruence].
Qed.

Section split_join.
Variables (c : ascii) (sep' : string).
Local Abbreviation sep := (String c sep').

(** Passing over what is left of a separator. *)
Lemma split_scan_skip (x rest cur : string) :
  split_scan sep (String.length x) cur (x +:+ rest) = split_scan sep 0 cur rest.
Proof.
  induction x as [|a x IH].
  - rewrite string_app_empty. by destruct rest.
  - rewrite string_app_String. simpl. apply IH.
Qed.

(** At a separator the current piece ends and the scan resumes after it. *)
Lemma split_scan_sep (rest cur : string) :
  split_scan sep 0 cur (sep +:+ rest) = cur :: split_scan sep 0 "" rest.
Proof.
  pose proof (prefix_app sep rest) as Hp.
  rewrite string_app_String in Hp |- *.
  cbn [split_scan]. rewrite Hp. cbn [String.length].
  rewrite Nat.sub_1_r. cbn [Nat.pred]. by rewrite split_scan_skip.
Qed.

(** A piece in which the first character of the separator does not occur is
    read up to its end. *)
Lemma split_scan_piece (e rest cur : string) :
  char_in c e = false →
  split_scan sep 0 cur (e +:+ rest) = split_scan sep 0 (cur +:+ e) rest.
Proof.
  revert cur. induction e as [|a e IH]; intros cur Hc.
  - by rewrite string_app_nil_r.
  - simpl in Hc. apply orb_false_iff in Hc as [Ha Hc].
    apply Ascii.eqb_neq in Ha.
    rewrite string_app_String. cbn [split_scan String.prefix].
    destruct (ascii_dec c a) as [->|_]; [done|].
    rewrite IH by done. rewrite string_app_assoc.
    by rewrite string_app_String, string_app_empty.
Qed.

Lemma split_scan_join (e : string) (d : list string) (cur : string) :
  Forall (λ x, char_in c x = false) (e :: d) →
  split_scan sep 0 cur (str_join sep (e :: d)) = (cur +:+ e) :: d.
Proof.
  revert e cur. induction d as [|e2 d IH]; intros e cur Hall.
  - apply Forall_cons in Hall as [He _]. cbn [str_join].
    rewrite <- (string_app_nil_r e) at 1. by rewrite split_scan_piece.
  - apply Forall_cons in Hall as [He Hall].
    change (str_join sep (e :: e2 :: d)) with (e +:+ sep +:+ str_join sep (e2 :: d)).
    rewrite split_scan_piece by done. rewrite split_scan_sep.
    by rewrite IH, string_app_empty.
Qed.

Lemma str_join_empty (d : list string) :
  str_join sep d = "" → d = [] ∨ d = [""].
Proof.
  destruct d as [|e [|e2 d]]; cbn [str_join].
  - by left.
  - intros ->. by right.
  - destruct e; [|by rewrite string_app_String].
    by rewrite string_app_empty, string_app_String.
Qed.

End split_join.

(** C5, as stated, fails when an element contains the delimiter without
    being equal to it. *)
Lemma list_of_dsv_of_list_element_with_sep :
  ¬ (Forall (λ x, x ≠ ",") ["a,b"] → "," ≠ "" →
     list_of_dsv (dsv_of_list ["a,b"] ",") "," = Returns ["a,b"]).
Proof.
  intros Hclaim. discriminate Hclaim.
  - repeat constructor. discriminate.
  - discriminate.
Qed.

(** Two more inputs on which the round trip fails: the sequence [['']], which
    joins to the empty string, and a delimiter that occurs across the border
    of an element and a delimiter. *)
Lemma list_of_dsv_of_list_single_empty :
  list_of_dsv (dsv_of_list [""] "@") "@" = Returns [].
Proof. reflexivity. Qed.

Lemma list_of_dsv_of_list_overlap :
  list_of_dsv (dsv_of_list ["a"; "ab"] "aa") "aa" = Returns [""; ""; "b"].
Proof. reflexivity. Qed.

(** ** key_mappers/tuples.py: strings and patterns *)

(** C7: when the pattern matches, [tuple_of_str] returns the groups of the
    match and [dict_of_str] its named groups; each of them raises exactly when
    the pattern does not match, and what it raises then is a
    [KeyValidationError]. *)
Theorem str_codecs_follow_match (s : string) (p : compiled_regex) :
  (∀ m, regex_match p s = Some m →
        tuple_of_str s p = Returns (groups m) ∧ dict_of_str s p = Returns (groupdict m))
  ∧ ((∃ e, tuple_of_str s p = Raises e) ↔ regex_match p s = None)
  ∧ ((∃ e, dict_of_str s p = Raises e) ↔ regex_match p s = None)
  ∧ (regex_match p s = None →
       (∃ msg, tuple_of_str s p = Raises (Exc KeyValidationError msg))
       ∧ (∃ msg, dict_of_str s p = Raises (Exc KeyValidationError msg))).
Proof.
  unfold tuple_of_str, dict_of_str, no_match_error.
  destruct (regex_match p s) as [m|]; repeat split; try done.
  all: try (by simplify_eq).
  all: try (by intros [e ?]).
  all: by eexists.
Qed.

Lemma str_codecs_follow_match_witness :
  tuple_of_str "123ABC" (digits_then_word 3) = Returns [Some "123"]
  ∧ dict_of_str "2019rest" (named_digits "year" 4) = Returns {[ "year" := Some "2019" ]}
  ∧ (∃ msg, tuple_of_str "123ABC" (named_digits "year" 4)
            = Raises (Exc KeyValidationError msg)).
Proof.
  split; [|split].
  - refine (proj1 (proj1 (str_codecs_follow_match "123ABC" (digits_then_word 3))
             {| groups := [Some "123"]; groupdict := ∅ |} _)).
    reflexivity.
  - refine (proj2 (proj1 (str_codecs_follow_match "2019rest" (named_digits "year" 4))
             {| groups := [Some "2019"]; groupdict := {[ "year" := Some "2019" ]} |} _)).
    reflexivity.
  - refine (proj1 (proj2 (proj2 (proj2
      (str_codecs_follow_match "123ABC" (named_digits "year" 4)))) _)).
    reflexivity.
Defined.

(** ** key_mappers/tuples.py: templates *)

(** A computation that returns: its first step returns. *)
Ltac bind_inv H :=
  match type of H with
  | (?c ≫= _) = Returns _ =>
      let E := fresh "E" in
      destruct c as [?|?] eqn:E; [rewrite bind_returns in H|discriminate H]
  end.

Section str_format_correct.
Context {V : Type} `{PyObject V}.

Lemma positional_index (args : list V) (n : N) :
  (if (n <? N.of_nat (length args))%N then positional args (N.to_nat n)
   else Raises index_error)
  = positional args (N.to_nat n).
Proof.
  destruct (N.ltb_spec n (N.of_nat (length args))); [done|].
  unfold positional. rewrite lookup_ge_None_2; [done|lia].
Qed.

(** The argument of a field is the one its request refers to. *)
Lemma get_argument_returns (args : list V) (kwargs : gmap string V) (st st1 : numbering)
    (first : string) (plain : option string) (v : V) :
  get_argument args kwargs st first = Returns (v, st1) →
  ∃ r, argument_request st first plain = ([r], st1)
       ∧ argument_of args kwargs r = Some v ∧ plain_spec r = plain.
Proof.
  unfold get_argument, argument_request.
  destruct (field_ref_of first) as [|n| |key]; [| |done|].
  - destruct st as [|i|]; [| |done]; unfold positional.
    + destruct (args !! 0) as [v'|] eqn:Hv; [|done]. intros [= <- <-]. by eexists.
    + destruct (args !! i) as [v'|] eqn:Hv; [|done]. intros [= <- <-].
      eexists. split; [done|]. simpl. by rewrite Nat2N.id.
  - rewrite positional_index. unfold positional.
    destruct st as [|i|]; [|done|].
    all: destruct (args !! N.to_nat n) as [v'|] eqn:Hv; [|done].
    all: intros [= <- <-]; by eexists.
  - destruct (kwargs !! key) as [v'|] eqn:Hv; [|done]. intros [= <- <-]. by eexists.
Qed.


Lemma argument_request_plain (st : numbering) (first : string) (plain : option string) :
  ∀ r, r ∈ (argument_request st first plain).1 → plain_spec r = plain.
Proof.
  unfold argument_request. intros r.
  destruct (field_ref_of first) as [|n| |key]; [destruct st|destruct st| |]; simpl.
  all: intros Hr; try (by apply elem_of_nil in Hr).
  all: by apply list_elem_of_singleton in Hr as ->.
Qed.

(** When the pieces of a template are rendered to the end, every request of
    theirs was satisfied. *)
Lemma do_markup_returns (expand : string → numbering → outcome (string * numbering))
    (expand_requests : string → numbering → list request * numbering)
    (args : list V) (kwargs : gmap string V) :
  (∀ spec st s st', expand spec st = Returns (s, st') →
     (expand_requests spec st).2 = st'
     ∧ Forall (satisfied args kwargs) (expand_requests spec st).1) →
  ∀ ps st s st', do_markup expand args kwargs ps st = Returns (s, st') →
     (requests_of expand_requests ps st).2 = st'
     ∧ Forall (satisfied args kwargs) (requests_of expand_requests ps st).1.
Proof.
  intros Hexpand. induction ps as [|p ps IH]; intros st s st' Hrun.
  { simpl in Hrun. by simplify_eq. }
  destruct p as [text|name conversion spec|msg]; cbn [do_markup requests_of] in *;
    [| |done].
  { bind_inv Hrun. destruct a as [rest st'']. injection Hrun as <- <-. by eapply IH. }
  unfold get_field_object in Hrun.
  destruct (field_name_split "" name) as [first rest].
  bind_inv Hrun. destruct a as [obj st1].
  bind_inv E. destruct a as [obj0 st0].
  bind_inv E. injection E as <- <-.
  bind_inv Hrun. rename a into obj'.
  bind_inv Hrun. destruct a as [spec' st2].
  bind_inv Hrun. rename a into w.
  bind_inv Hrun. destruct a as [text st3]. injection Hrun as <- <-.
  set (plain := match rest with
                | "" =>
                    if Ascii.eqb conversion no_conversion && negb (char_in "{" spec)
                    then Some spec else None
                | _ => None
                end).
  destruct (get_argument_returns _ _ _ _ _ plain _ E0) as (r & -> & Hr & Hplain).
  assert ((if char_in "{" spec then expand_requests spec st0 else ([], st0)).2 = st2
          ∧ Forall (satisfied args kwargs)
              (if char_in "{" spec then expand_requests spec st0 else ([], st0)).1)
    as [Hst2 Hinner].
  { destruct (char_in "{" spec); [by eapply Hexpand|]. by simplify_eq. }
  destruct (if char_in "{" spec then expand_requests spec st0 else ([], st0))
    as [inner st2'].
  simpl in Hst2, Hinner. subst st2'.
  destruct (IH _ _ _ E4) as [Hst3 Hlater].
  destruct (requests_of expand_requests ps st2) as [later st3'].
  simpl in *. split; [done|].
  apply Forall_cons. split; [|by apply Forall_app].
  exists obj0. split; [done|]. intros spec0 Hspec0. rewrite Hplain in Hspec0.
  subst plain. destruct rest; [|done].
  destruct (Ascii.eqb conversion no_conversion) eqn:Hconversion; [|done].
  destruct (char_in "{" spec) eqn:Hnested; [done|].
  injection Hspec0 as <-. simpl in E1. injection E1 as <-.
  unfold do_conversion in E. rewrite Hconversion in E. injection E as <-.
  injection E2 as <- <-. by exists w.
Qed.

Lemma build_string_returns (args : list V) (kwargs : gmap string V) (depth : nat) :
  ∀ template st s st', build_string depth args kwargs template st = Returns (s, st') →
    (requests depth template st).2 = st'
    ∧ Forall (satisfied args kwargs) (requests depth template st).1.
Proof.
  induction depth as [|depth IH]; intros template st s st' Hrun; [done|].
  simpl in *. by eapply do_markup_returns.
Qed.



(** What [str_format] returns and raises, in terms of the requests. *)
Lemma str_format_returns (args : list V) (kwargs : gmap string V) (template s : string) :
  str_format template args kwargs = Returns s →
  Forall (satisfied args kwargs) (requested template).
Proof.
  unfold str_format, requested. intros Hrun. bind_inv Hrun. destruct a as [s' st'].
  by eapply build_string_returns.
Qed.

Lemma str_format_unsatisfied (args : list V) (kwargs : gmap string V) (template : string)
    (r : request) :
  r ∈ requested template → ¬ satisfied args kwargs r →
  ∃ e, str_format template args kwargs = Raises e.
Proof.
  intros Hr Hnot. destruct (str_format template args kwargs) as [s|e] eqn:Hrun;
    [|by exists e].
  apply str_format_returns in Hrun. rewrite Forall_forall in Hrun. by apply Hrun in Hr.
Qed.




Lemma keywords_elem (reqs : list request) (key : string) :
  key ∈ keywords reqs ↔ ∃ plain, Keyword key plain ∈ reqs.
Proof.
  unfold keywords. rewrite list_elem_of_omap. split.
  - intros ([i plain|key' plain] & Hin & Heq); [done|].
    injection Heq as ->. by exists plain.
  - intros [plain Hin]. by exists (Keyword key plain).
Qed.

Lemma positionals_elem (reqs : list request) (i : N) :
  i ∈ positionals reqs ↔ ∃ plain, Positional i plain ∈ reqs.
Proof.
  unfold positionals. rewrite list_elem_of_omap. split.
  - intros ([i' plain|key' plain] & Hin & Heq); [|done].
    injection Heq as ->. by exists plain.
  - intros [plain Hin]. by exists (Positional i plain).
Qed.

End str_format_correct.

Lemma parse_format_text (text s : string) :
  brace_free s → parse_format (InText text) s = literal (text +:+ s).
Proof.
  revert text. induction s as [|a s IH]; intros text [Hopen Hclose].
  - simpl. by rewrite string_app_nil_r.
  - simpl in Hopen, Hclose.
    apply orb_false_iff in Hopen as [Hopen1 Hopen], Hclose as [Hclose1 Hclose].
    cbn [parse_format]. rewrite Hopen1, Hclose1.
    rewrite IH by done. unfold snoc_char.
    by rewrite string_app_assoc, string_app_String, string_app_empty.
Qed.

Lemma parse_format_text_app (text lit rest : string) :
  brace_free lit →
  parse_format (InText text) (lit +:+ rest) = parse_format (InText (text +:+ lit)) rest.
Proof.
  revert text. induction lit as [|a lit IH]; intros text [Hopen Hclose].
  - by rewrite string_app_empty, string_app_nil_r.
  - simpl in Hopen, Hclose.
    apply orb_false_iff in Hopen as [Hopen1 Hopen], Hclose as [Hclose1 Hclose].
    rewrite string_app_String. cbn [parse_format]. rewrite Hopen1, Hclose1.
    rewrite IH by done. unfold snoc_char.
    by rewrite string_app_assoc, string_app_String, string_app_empty.
Qed.

Lemma parse_format_auto (text rest : string) :
  parse_format (InText text) ("{}" +:+ rest)
  = literal text ++ Field "" no_conversion "" :: parse_format (InText "") rest.
Proof. reflexivity. Qed.







Section render_plain.
Context {V : Type} `{PyObject V}.
Context (expand : string → numbering → outcome (string * numbering)).

Lemma do_markup_literal (args : list V) (kwargs : gmap string V) (st : numbering)
    (text : string) (ps : list piece) :
  do_markup expand args kwargs (literal text ++ ps) st
  = '(rest, st') ← do_markup expand args kwargs ps st; mret (text +:+ rest, st').
Proof.
  destruct text; [|done]. simpl.
  by destruct (do_markup expand args kwargs ps st) as [[rest st']|e].
Qed.

Lemma do_markup_text (args : list V) (kwargs : gmap string V) (st : numbering)
    (text : string) :
  do_markup expand args kwargs (literal text) st = Returns (text, st).
Proof.
  rewrite <- (app_nil_r (literal text)), do_markup_literal. simpl.
  by rewrite string_app_nil_r.
Qed.

(** A field [{}] whose argument is there. *)
Lemma do_markup_auto_field (done rem : list V) (kwargs : gmap string V) (st : numbering)
    (v : V) (ps : list piece) :
  st = ANS_AUTO (length done) ∨ (st = ANS_INIT ∧ done = []) →
  do_markup expand (done ++ v :: rem) kwargs (Field "" no_conversion "" :: ps) st
  = s ← py_format v "";
    '(rest, st') ← do_markup expand (done ++ v :: rem) kwargs ps
                     (ANS_AUTO (S (length done)));
    mret (s +:+ rest, st').
Proof.
  intros Hst. cbn [do_markup]. unfold get_field_object, get_argument.
  cbn [field_name_split field_ref_of name_steps].
  assert (positional (done ++ v :: rem) (length done) = Returns v) as Hpos.
  { unfold positional. by rewrite list_lookup_middle. }
  destruct Hst as [->|[-> ->]].
  - by rewrite Hpos.
  - done.
Qed.

(** A field [{}] whose argument is not there. *)
Lemma do_markup_auto_missing (args : list V) (kwargs : gmap string V) (st : numbering)
    (ps : list piece) :
  st = ANS_AUTO (length args) ∨ (st = ANS_INIT ∧ args = []) →
  do_markup expand args kwargs (Field "" no_conversion "" :: ps) st = Raises index_error.
Proof.
  intros Hst. cbn [do_markup]. unfold get_field_object, get_argument.
  cbn [field_name_split field_ref_of name_steps].
  destruct Hst as [->|[-> ->]]; [|done].
  unfold positional. by rewrite lookup_ge_None_2.
Qed.


(** [with_placeholders]: the placeholders take the arguments in turn. *)
Lemma do_markup_placeholders (kwargs : gmap string V) (last : string) :
  brace_free last →
  ∀ lits rem ws done text st,
    Forall brace_free lits →
    st = ANS_AUTO (length done) ∨ (st = ANS_INIT ∧ done = []) →
    Forall2 (λ v w, py_format v "" = Returns w) (take (length lits) rem) ws →
    (length lits ≤ length rem →
       ∃ st', do_markup expand (done ++ rem) kwargs
                (parse_format (InText text) (with_placeholders lits last)) st
              = Returns (text +:+ populated lits ws last, st'))
    ∧ (length rem < length lits →
       do_markup expand (done ++ rem) kwargs
         (parse_format (InText text) (with_placeholders lits last)) st
       = Raises index_error).
Proof.
  intros Hlast. induction lits as [|lit lits IH]; intros rem ws done text st Hlits Hst Hws.
  { split; [|simpl; lia]. intros _. exists st. cbn [with_placeholders].
    rewrite parse_format_text, do_markup_text by done. by destruct ws. }
  apply Forall_cons in Hlits as [Hlit Hlits].
  cbn [with_placeholders].
  rewrite parse_format_text_app, parse_format_auto, do_markup_literal by done.
  destruct rem as [|v rem].
  { split; [simpl; lia|]. intros _. rewrite app_nil_r.
    rewrite do_markup_auto_missing; [done|].
    destruct Hst as [->|[-> ->]]; [by left|by right]. }
  cbn [length take] in Hws. apply Forall2_cons_inv_l in Hws as (w & ws' & Hw & Hws & ->).
  rewrite do_markup_auto_field, Hw, bind_returns by done.
  replace (done ++ v :: rem) with ((done ++ [v]) ++ rem) by (by rewrite <- app_assoc).
  destruct (IH rem ws' (done ++ [v]) "" (ANS_AUTO (S (length done))) Hlits) as [Hok Hfew];
    [left; rewrite length_app; simpl; f_equal; lia|done|].
  split.
  - intros Hlen. destruct Hok as [st' ->]; [simpl in Hlen; lia|].
    exists st'. simpl. by rewrite !string_app_assoc.
  - intros Hlen. rewrite Hfew; [done|simpl in Hlen; lia].
Qed.


End render_plain.

Lemma build_string_S {V : Type} `{PyObject V} (depth : nat) (args : list V)
    (kwargs : gmap string V) (template : string) (st : numbering) :
  build_string (S depth) args kwargs template st
  = do_markup (build_string depth args kwargs) args kwargs
      (parse_format (InText "") template) st.
Proof. reflexivity. Qed.






(** The docstring's examples; an element that does not accept the format
    code of its field; a conversion; a field inside a spec, which asks for an
    element of its own. *)
Lemma str_of_tuple_examples :
  in_every_world (λ _,
    str_of_tuple [PyInt 1; PyInt 2; PyInt 3] "{}{}" = Returns "12"
    ∧ str_of_tuple [PyStr "longstring"; PyInt 100] "{:.4}{:>10}"
      = Returns "long       100"
    ∧ str_of_tuple [PyInt 1; PyInt 2; PyInt 3] "{}{}{}{}"
      = Raises (ExcOf KeyValidationError index_error)
    ∧ str_of_tuple [PyStr "abc"] "{:d}"
      = Raises (ExcOf KeyValidationError
          (Exc ValueError "Unknown format code 'd' for object of type 'str'"))
    ∧ str_of_tuple [PyStr "abc"] "{!r}{}" = Raises (ExcOf KeyValidationError index_error)
    ∧ str_of_tuple [PyStr "abc"; PyInt 7] "{!r}{}" = Returns "'abc'7"
    ∧ str_of_tuple [PyInt 5] "{:{}}" = Raises (ExcOf KeyValidationError index_error)
    ∧ str_of_tuple [PyInt 5; PyInt 3] "{:{}}" = Returns "  5").
Proof. intros w. repeat split; by vm_compute. Qed.

Lemma requested_examples :
  positional_needed "{}{}" = 2%N
  ∧ positional_needed "{0}{2}" = 3%N
  ∧ positional_needed "{:{}}" = 2%N
  ∧ positional_placeholders "{}{}" = 2
  ∧ named_placeholders "{A}{B}" = ["A"; "B"]
  ∧ named_placeholders "{A!r}{B}" = ["A"; "B"]
  ∧ requested "{0:>5}{a.b!r}{0[1]:{c}}"
    = [Positional 0 (Some ">5"); Keyword "a" None; Positional 0 None; Keyword "c" (Some "")].
Proof. repeat split; by vm_compute. Qed.



Lemma str_of_dict_examples :
  in_every_world (λ _,
    str_of_dict ({["A" := PyStr "a"; "B" := PyStr "b"]} : gmap string pyval) "{A}{B}"
    = Returns "ab"
    ∧ str_of_dict ({["A" := PyStr "a"; "B" := PyStr "b"; "C" := PyStr "c"]}
                   : gmap string pyval) "{A}{B}"
      = Returns "ab"
    ∧ str_of_dict ({["A" := PyStr "a"]} : gmap string pyval) "{A}{B}"
      = Raises (ExcOf KeyValidationError (Exc KeyError "B"))
    ∧ str_of_dict ({["A" := PyInt 1; "B" := PyInt 2]} : gmap string pyval) "{A!r}{B}"
      = Returns "12"
    ∧ str_of_dict ({["A" := PyInt 3; "B" := PyInt 4]} : gmap string pyval) "{A!r}{B}"
      = Returns "34").
Proof. intros w. repeat split; by vm_compute. Qed.

(** * Further properties *)

(** ** base.py: _check_methods and the subclass hooks *)

Section check_methods_correct.
Context {A : Type}.
Implicit Types (mro pre post : list (gmap string (option A))) (B : gmap string (option A)).

Lemma method_found_decided mro method :
  method_found mro method = true
  ↔ ∃ B v, decided_by mro method B ∧ B !! method = Some (Some v).
Proof.
  induction mro as [|B0 mro IH]; simpl.
  - split; [done|]. intros (B & v & (pre & post & Hmro & _) & _).
    by destruct pre.
  - destruct (B0 !! method) as [[v|]|] eqn:HB0.
    + split; [|done]. intros _. exists B0, v. split; [|done].
      exists [], mro. split; [done|]. split; [constructor|by eexists].
    + split; [done|]. intros (B & v & (pre & post & Hmro & Hpre & _) & HB).
      destruct pre as [|B1 pre]; simplify_eq/=.
      apply Forall_cons in Hpre as [? _]. congruence.
    + rewrite IH. split.
      * intros (B & v & (pre & post & -> & Hpre & HB') & HB).
        exists B, v. split; [|done]. exists (B0 :: pre), post.
        split; [done|]. split; [by constructor|done].
      * intros (B & v & (pre & post & Hmro & Hpre & HB') & HB).
        destruct pre as [|B1 pre]; simplify_eq/=.
        apply Forall_cons in Hpre as [_ Hpre].
        exists B, v. split; [|done]. by exists pre, post.
Qed.

Lemma check_methods_true mro methods :
  _check_methods mro methods = CheckTrue
  ↔ Forall (λ method, method_found mro method = true) methods.
Proof.
  induction methods as [|m methods IH]; simpl.
  - split; [constructor|done].
  - rewrite Forall_cons. destruct (method_found mro m).
    + rewrite IH. tauto.
    + split; [done|]. by intros [? _].
Qed.

(** X1: [_check_methods] answers [True] exactly when, for each of the
    methods, the first class of the MRO that has the name in its [__dict__]
    has it with a value other than [None]. *)
Theorem check_methods_first_definer mro methods :
  _check_methods mro methods = CheckTrue
  ↔ ∀ method, method ∈ methods →
      ∃ B v, decided_by mro method B ∧ B !! method = Some (Some v).
Proof.
  rewrite check_methods_true, Forall_forall.
  split; intros Hall m Hm; apply method_found_decided, Hall, Hm.
Qed.

Lemma method_found_inherited pre mro method :
  Forall (λ B', B' !! method = None) pre →
  method_found (pre ++ mro) method = method_found mro method.
Proof.
  induction 1 as [|B' pre HB' _ IH]; simpl; [done|]. by rewrite HB'.
Qed.

(** X2: classes at the front of the MRO that do not have any of the methods
    in their [__dict__] do not change the answer: a subclass that leaves the
    methods alone is judged as its bases are. *)
Theorem check_methods_inherited pre mro methods :
  Forall (λ B', ∀ method, method ∈ methods → B' !! method = None) pre →
  _check_methods (pre ++ mro) methods = _check_methods mro methods.
Proof.
  intros Hpre. induction methods as [|m methods IH]; simpl; [done|].
  rewrite method_found_inherited.
  - rewrite IH; [done|]. eapply Forall_impl; [done|].
    intros B' HB' m' Hm'. apply HB'. by right.
  - eapply Forall_impl; [done|]. intros B' HB'. apply HB'. left.
Qed.

(** X3: once a class has a method's name in its [__dict__], the classes after
    it in the MRO play no part for that method; in particular a [None] entry
    in a subclass withdraws a method its bases define. *)
Theorem check_methods_shadowing pre post post' B method :
  Forall (λ B', B' !! method = None) pre → is_Some (B !! method) →
  _check_methods (pre ++ B :: post) [method] = _check_methods (pre ++ B :: post') [method]
  ∧ (B !! method = Some None →
     ∀ methods, method ∈ methods →
       _check_methods (pre ++ B :: post) methods = NotImplemented).
Proof.
  intros Hpre [a HB]. split.
  - simpl. rewrite !method_found_inherited by done. simpl. by rewrite HB.
  - intros HNone methods Hin.
    destruct (_check_methods (pre ++ B :: post) methods) eqn:Hchk; [|done].
    apply check_methods_true in Hchk.
    rewrite Forall_forall in Hchk. specialize (Hchk _ Hin).
    rewrite method_found_inherited in Hchk by done. simpl in Hchk.
    by rewrite HNone in Hchk.
Qed.

(** X4: the answer depends on the set of the methods asked for only, not on
    their order or on repetitions; asking for several methods is asking for
    each. *)
Theorem check_methods_set mro methods1 methods2 :
  (_check_methods mro (methods1 ++ methods2) = CheckTrue
   ↔ _check_methods mro methods1 = CheckTrue ∧ _check_methods mro methods2 = CheckTrue)
  ∧ ((∀ method, method ∈ methods1 ↔ method ∈ methods2) →
     _check_methods mro methods1 = _check_methods mro methods2).
Proof.
  split.
  - by rewrite !check_methods_true, Forall_app.
  - intros Hsame.
    assert (_check_methods mro methods1 = CheckTrue
            ↔ _check_methods mro methods2 = CheckTrue) as Hiff.
    { rewrite !check_methods_true, !Forall_forall.
      split; intros Hall m Hm; apply Hall, Hsame, Hm. }
    destruct (_check_methods mro methods1), (_check_methods mro methods2);
      try done; [symmetry|]; tauto.
Qed.

(** X5: the hook of [AbstractObjWriter] takes a class for an object writer
    exactly when it is asked on [AbstractObjWriter] itself and the class that
    decides for [__setitem__] and the one that decides for [__delitem__] both
    give a value other than [None]; the hook of [AbstractObjReader] asks the
    same of [__getitem__] alone. *)
Theorem subclasshooks mro (cls_is_abc : bool) :
  (ObjWriter_subclasshook cls_is_abc mro = CheckTrue
   ↔ cls_is_abc = true
     ∧ (∃ B v, decided_by mro "__setitem__" B ∧ B !! "__setitem__" = Some (Some v))
     ∧ (∃ B v, decided_by mro "__delitem__" B ∧ B !! "__delitem__" = Some (Some v)))
  ∧ (ObjReader_subclasshook cls_is_abc mro = CheckTrue
     ↔ cls_is_abc = true
       ∧ ∃ B v, decided_by mro "__getitem__" B ∧ B !! "__getitem__" = Some (Some v)).
Proof.
  unfold ObjWriter_subclasshook, ObjReader_subclasshook.
  destruct cls_is_abc.
  - rewrite !check_methods_true, !Forall_cons, Forall_nil, !method_found_decided.
    tauto.
  - split; split; try done; by intros [? _].
Qed.

End check_methods_correct.

Lemma check_methods_inherited_witness :
  _check_methods (A:=nat) ([∅] ++ [{["__getitem__" := Some 0]}]) ["__getitem__"]
  = _check_methods [{["__getitem__" := Some 0]}] ["__getitem__"].
Proof.
  apply (check_methods_inherited (A:=nat) [∅] [{["__getitem__" := Some 0]}] ["__getitem__"]).
  repeat constructor.
Defined.

Lemma check_methods_shadowing_witness :
  _check_methods (A:=nat)
    ([∅] ++ {["__getitem__" := None]} :: [{["__getitem__" := Some 0]}])
    ["__getitem__"]
  = NotImplemented.
Proof.
  refine (proj2 (check_methods_shadowing (A:=nat) [∅] [{["__getitem__" := Some 0]}] []
                   {["__getitem__" := None]} "__getitem__" _ _) _ ["__getitem__"] _).
  - repeat constructor.
  - by eexists.
  - reflexivity.
  - left.
Defined.

Lemma check_methods_set_witness :
  _check_methods (A:=nat) [{["__setitem__" := Some 0]}] ["__setitem__"; "__delitem__"]
  = _check_methods [{["__setitem__" := Some 0]}] ["__delitem__"; "__setitem__"; "__delitem__"].
Proof.
  refine (proj2 (check_methods_set (A:=nat) [{["__setitem__" := Some 0]}]
                   ["__setitem__"; "__delitem__"]
                   ["__delitem__"; "__setitem__"; "__delitem__"]) _).
  intros method. rewrite !elem_of_cons, !elem_of_nil. tauto.
Defined.

(** ** base.py: AbstractKeys *)

Section abstract_keys_more.
Context {C K : Type} `{AbstractKeys C K}.

(** X6: a collection that contains some key has at least one element, and
    one whose iteration yields nothing has length [0] and contains no key. *)
Theorem contains_len_consistent (self : C) :
  (∀ k, __contains__ self k = true → 0 < __len__ self)
  ∧ (__iter__ self = [] → __len__ self = 0 ∧ ∀ k, __contains__ self k = false).
Proof.
  unfold __contains__, __len__. rewrite len_loop_length. split.
  - intros k Hk. apply contains_loop_true in Hk as (x & Hx & _).
    destruct (__iter__ self); [by apply elem_of_nil in Hx|simpl; lia].
  - by intros ->.
Qed.

(** X7: when the [==] of the keys is reflexive, every key the iteration
    yields is contained; a key that is equal to none of the yielded keys, as
    one that is not equal to itself, is not, even when it is yielded. *)
Theorem contains_yielded (self : C) (k : K) :
  ((∀ x, key_eq x x = true) → k ∈ __iter__ self → __contains__ self k = true)
  ∧ ((∀ x, x ∈ __iter__ self → key_eq x k = false) → __contains__ self k = false).
Proof.
  unfold __contains__. split.
  - intros Hrefl Hk. apply contains_loop_true. by exists k.
  - intros Hne. destruct (contains_loop k (__iter__ self)) eqn:Hc; [|done].
    apply contains_loop_true in Hc as (x & Hx & Hxk).
    by rewrite Hne in Hxk.
Qed.

End abstract_keys_more.

Lemma contains_len_consistent_witness :
  0 < __len__ ({["a" := 1; "b" := 2]} : gmap string nat)
  ∧ __len__ (∅ : gmap string nat) = 0.
Proof.
  split.
  - refine (proj1 (contains_len_consistent ({["a" := 1; "b" := 2]} : gmap string nat))
              "a" _).
    by vm_compute.
  - refine (proj1 (proj2 (contains_len_consistent (∅ : gmap string nat)) _)).
    by vm_compute.
Defined.

Lemma contains_yielded_witness :
  __contains__ ({["a" := 1; "b" := 2]} : gmap string nat) "b" = true
  ∧ __contains__ ({["a" := 1; "b" := 2]} : gmap string nat) "c" = false.
Proof.
  split.
  - refine (proj1 (contains_yielded ({["a" := 1; "b" := 2]} : gmap string nat) "b") _ _).
    + intros x. apply String.eqb_refl.
    + vm_compute. repeat constructor.
  - refine (proj2 (contains_yielded ({["a" := 1; "b" := 2]} : gmap string nat) "c") _).
    intros x Hx. vm_compute in Hx.
    repeat (apply elem_of_cons in Hx as [->|Hx]; [reflexivity|]).
    by apply elem_of_nil in Hx.
Defined.

(** ** key_mappers/tuples.py: tuples and dicts, further *)

Section tuples_and_dicts_more.
Context {K V : Type} `{Countable K} `{KeyArg K}.

Lemma traverse_getitem_returns (d : gmap K V) (fields : list K) (t : list V) :
  traverse (getitem d) fields = Returns t
  ↔ Forall2 (λ f v, d !! f = Some v) fields t.
Proof.
  split; [|apply traverse_getitem].
  revert t. induction fields as [|f fields IH]; intros t; simpl.
  - intros [= <-]. constructor.
  - destruct (d !! f) as [v|] eqn:Hf.
    + rewrite (getitem_Some _ _ _ Hf), bind_returns.
      destruct (traverse (getitem d) fields) as [t'|e]; [|done].
      rewrite bind_returns. intros [= <-]. constructor; [done|by apply IH].
    + by rewrite (getitem_None _ _ Hf).
Qed.

Lemma traverse_getitem_raises (d : gmap K V) (fields : list K) (e : exception) :
  traverse (getitem d) fields = Raises e
  ↔ ∃ pre f post, fields = pre ++ f :: post
                  ∧ Forall (λ g, is_Some (d !! g)) pre
                  ∧ d !! f = None ∧ e = Exc KeyError (key_arg f).
Proof.
  induction fields as [|f fields IH]; simpl.
  - split; [done|]. intros (pre & g & post & Heq & _). by destruct pre.
  - destruct (d !! f) as [v|] eqn:Hf.
    + rewrite (getitem_Some _ _ _ Hf), bind_returns.
      assert ((∃ pre g post, f :: fields = pre ++ g :: post
                 ∧ Forall (λ g, is_Some (d !! g)) pre
                 ∧ d !! g = None ∧ e = Exc KeyError (key_arg g))
              ↔ traverse (getitem d) fields = Raises e) as ->.
      { rewrite IH. split.
        - intros (pre & g & post & Heq & Hpre & Hg & He).
          destruct pre as [|f0 pre]; simplify_eq/=.
          apply Forall_cons in Hpre as [_ Hpre]. by exists pre, g, post.
        - intros (pre & g & post & -> & Hpre & Hg & He).
          exists (f :: pre), g, post. split; [done|]. split; [|done].
          constructor; [by eexists|done]. }
      destruct (traverse (getitem d) fields) as [t'|e'].
      * by rewrite bind_returns.
      * by rewrite bind_raises.
    + rewrite (getitem_None _ _ Hf), bind_raises. split.
      * intros [= <-]. exists [], f, fields. split; [done|]. split; [constructor|done].
      * intros (pre & g & post & Heq & Hpre & Hg & ->).
        destruct pre as [|f0 pre]; simplify_eq/=; [done|].
        apply Forall_cons in Hpre as [[? ?] _]. congruence.
Qed.

Lemma tuple_of_dict_ok (d : gmap K V) (fields : list K) (t : list V) :
  length fields = size d → Forall2 (λ f v, d !! f = Some v) fields t →
  tuple_of_dict d fields = Returns t.
Proof.
  intros Hlen Hall. unfold tuple_of_dict. rewrite bool_decide_true by done.
  rewrite assert_condition_true. by apply traverse_getitem.
Qed.

Lemma tuple_of_dict_ok_inv (d : gmap K V) (fields : list K) (t : list V) :
  tuple_of_dict d fields = Returns t →
  length fields = size d ∧ Forall2 (λ f v, d !! f = Some v) fields t.
Proof.
  unfold tuple_of_dict. case_bool_decide as Hlen; [|done].
  rewrite assert_condition_true. by intros ?%traverse_getitem_returns.
Qed.

(** X8: [tuple_of_dict] returns [t] exactly when there are as many fields
    as [d] has items, [t] has one element for each field, and the element at
    the place of a field is the value of [d] at that field. *)
Theorem tuple_of_dict_returns (d : gmap K V) (fields : list K) (t : list V) :
  tuple_of_dict d fields = Returns t
  ↔ length fields = size d ∧ Forall2 (λ f v, d !! f = Some v) fields t.
Proof.
  split.
  - apply tuple_of_dict_ok_inv.
  - intros [Hlen Hall]. by apply tuple_of_dict_ok.
Qed.

(** X9: the two ways [tuple_of_dict] raises: a [KeyValidationError] with the
    two lengths in its message when they differ; otherwise a [KeyError] for
    the first of the fields, in their order, that is no key of [d]. *)
Theorem tuple_of_dict_raises (d : gmap K V) (fields : list K) (e : exception) :
  tuple_of_dict d fields = Raises e
  ↔ (length fields ≠ size d
     ∧ e = Exc KeyValidationError
             ("len(d)=" +:+ pretty (size d) +:+ " but len(fields)="
              +:+ pretty (length fields)))
    ∨ (length fields = size d
       ∧ ∃ pre f post, fields = pre ++ f :: post
                       ∧ Forall (λ g, is_Some (d !! g)) pre
                       ∧ d !! f = None ∧ e = Exc KeyError (key_arg f)).
Proof.
  unfold tuple_of_dict. case_bool_decide as Hlen.
  - rewrite assert_condition_true, traverse_getitem_raises. split.
    + intros ?. by right.
    + intros [[? _]|[_ ?]]; done.
  - rewrite assert_condition_false. split.
    + intros [= <-]. by left.
    + intros [[_ ->]|[? _]]; done.
Qed.

(** X10: when [tuple_of_dict] returns, a field list without repetition is a
    permutation of the keys of [d], and a field list with a repetition leaves
    a key of [d] out. *)
Theorem tuple_of_dict_coverage (d : gmap K V) (fields : list K) (t : list V) :
  tuple_of_dict d fields = Returns t →
  (NoDup fields → fields ≡ₚ elements (dom d))
  ∧ (¬ NoDup fields → ∃ k, is_Some (d !! k) ∧ k ∉ fields).
Proof.
  intros [Hlen Hall]%tuple_of_dict_ok_inv.
  assert (Hin : ∀ f, f ∈ fields → f ∈ elements (dom d)).
  { intros f Hf. apply elem_of_elements, elem_of_dom.
    apply list_elem_of_lookup in Hf as [i Hi].
    destruct (Forall2_lookup_l _ _ _ _ _ Hall Hi) as (v & _ & Hv). by eexists. }
  assert (Hsize : length (elements (dom d)) = length fields).
  { rewrite Hlen, <- size_dom. done. }
  split.
  - intros Hnd. apply submseteq_length_Permutation; [|lia].
    by apply NoDup_submseteq.
  - intros Hdup.
    destruct (decide (Forall (λ k, k ∈ fields) (elements (dom d)))) as [Hcov|Hnot].
    + destruct Hdup. rewrite Forall_forall in Hcov.
      assert (elements (dom d) ≡ₚ fields) as <-.
      { apply submseteq_length_Permutation; [|lia].
        apply NoDup_submseteq; [apply NoDup_elements|done]. }
      apply NoDup_elements.
    + apply not_Forall_Exists, Exists_exists in Hnot as (k & Hk & Hkf); [|apply _].
      exists k. split; [|done]. by apply elem_of_dom, elem_of_elements.
Qed.

Lemma dict_comprehension_acc_dom (acc : gmap K V) (fields : list K) (t : list V) :
  length fields = length t →
  dom (foldl (λ d '(f, x), <[f:=x]> d) acc (zip fields t)) = list_to_set fields ∪ dom acc.
Proof.
  revert acc t. induction fields as [|f fields IH]; intros acc [|v t] Hlen; simplify_eq/=.
  - by rewrite (left_id_L ∅ (∪)).
  - rewrite IH by done. rewrite dom_insert_L.
    by rewrite (assoc_L (∪)), (comm_L (∪) (list_to_set fields)).
Qed.

Lemma dict_comprehension_acc_size_le (acc : gmap K V) (fields : list K) (t : list V) :
  size (foldl (λ d '(f, x), <[f:=x]> d) acc (zip fields t)) ≤ size acc + length fields.
Proof.
  revert acc t. induction fields as [|f fields IH]; intros acc [|v t]; simpl; try lia.
  etrans; [apply IH|]. rewrite map_size_insert. destruct (acc !! f); simpl; lia.
Qed.

Lemma dict_comprehension_acc_size_full (acc : gmap K V) (fields : list K) (t : list V) :
  length fields = length t →
  size (foldl (λ d '(f, x), <[f:=x]> d) acc (zip fields t)) = size acc + length fields →
  NoDup fields ∧ ∀ f, f ∈ fields → acc !! f = None.
Proof.
  revert acc t. induction fields as [|f fields IH]; intros acc [|v t] Hlen Hsize;
    simplify_eq/=.
  - split; [constructor|]. intros f Hf. by apply elem_of_nil in Hf.
  - pose proof (dict_comprehension_acc_size_le (<[f:=v]> acc) fields t) as Hle.
    rewrite map_size_insert in Hle.
    destruct (acc !! f) eqn:Hf; simpl in *; [lia|].
    destruct (IH (<[f:=v]> acc) t) as [Hnd Hfresh]; [done| |].
    { rewrite map_size_insert, Hf. simpl. lia. }
    assert (f ∉ fields) as Hnotin.
    { intros Hin. apply Hfresh in Hin. by rewrite lookup_insert_eq in Hin. }
    split; [by constructor|].
    intros g [->|Hg]%elem_of_cons; [done|].
    specialize (Hfresh g Hg). rewrite lookup_insert_ne in Hfresh; [done|].
    by intros ->.
Qed.

(** X11: the dict [dict_of_tuple] returns has the fields, and nothing else, as
    its keys; it has at most as many items as [t] has elements, and as many
    exactly when no field is repeated. *)
Theorem dict_of_tuple_keys (t : list V) (fields : list K) (d : gmap K V) :
  dict_of_tuple t fields = Returns d →
  dom d = list_to_set fields
  ∧ size d ≤ length t
  ∧ (size d = length t ↔ NoDup fields).
Proof.
  unfold dict_of_tuple. case_bool_decide as Hlen; [|done].
  rewrite assert_condition_true. intros [= <-]. unfold dict_comprehension.
  split; [|split].
  - rewrite dict_comprehension_acc_dom by done.
    by rewrite dom_empty_L, (right_id_L ∅ (∪)).
  - etrans; [apply dict_comprehension_acc_size_le|]. rewrite map_size_empty. lia.
  - split.
    + intros Hsize. eapply dict_comprehension_acc_size_full; [done|].
      rewrite map_size_empty. simpl. lia.
    + intros Hnd. rewrite dict_comprehension_acc_size; [|done..].
      rewrite map_size_empty. simpl. lia.
Qed.

Lemma dict_comprehension_acc_last (acc : gmap K V) (fields : list K) (t : list V)
    (i : nat) (f : K) (v : V) :
  fields !! i = Some f → t !! i = Some v →
  (∀ j, i < j → fields !! j ≠ Some f) →
  foldl (λ d '(f, x), <[f:=x]> d) acc (zip fields t) !! f = Some v.
Proof.
  revert acc t i. induction fields as [|f0 fields IH]; intros acc [|v0 t] [|i] Hf Hv Hlast;
    simplify_eq/=.
  - rewrite dict_comprehension_acc_notin; [by rewrite lookup_insert_eq|].
    intros [j Hj]%list_elem_of_lookup. by apply (Hlast (S j)); [lia|].
  - eapply IH; [done..|]. intros j Hj. apply (Hlast (S j)). lia.
Qed.

(** X12: in the dict [dict_of_tuple] returns, a field has the element of [t]
    at its last place in the field list. *)
Theorem dict_of_tuple_last_wins (t : list V) (fields : list K) (d : gmap K V)
    (i : nat) (f : K) :
  dict_of_tuple t fields = Returns d →
  fields !! i = Some f →
  (∀ j, i < j → fields !! j ≠ Some f) →
  is_Some (d !! f) ∧ d !! f = t !! i.
Proof.
  unfold dict_of_tuple. case_bool_decide as Hlen; [|done].
  rewrite assert_condition_true. intros [= <-] Hf Hlast.
  destruct (lookup_lt_is_Some_2 t i) as [v Hv].
  { rewrite <- Hlen. by eapply lookup_lt_Some. }
  unfold dict_comprehension.
  rewrite (dict_comprehension_acc_last _ _ _ i f v), Hv by done.
  split; [by eexists|done].
Qed.

(** X13: a tuple stored under fields without repetition and read back under
    a field list that is a permutation of them comes back reordered: the
    element read for a field is the one that was stored for it. *)
Theorem tuple_reordered (t : list V) (fields fields' : list K) :
  NoDup fields → length fields = length t → fields' ≡ₚ fields →
  ∃ t', dict_of_tuple t fields ≫= (λ d, tuple_of_dict d fields') = Returns t'
        ∧ length t' = length t
        ∧ ∀ i j f, fields !! i = Some f → fields' !! j = Some f → t' !! j = t !! i.
Proof.
  intros Hnd Hlen Hperm. unfold dict_of_tuple.
  rewrite bool_decide_true by done. rewrite assert_condition_true.
  unfold mret, outcome_ret. rewrite bind_returns. unfold dict_comprehension.
  set (d := foldl (λ d '(f, x), <[f:=x]> d) ∅ (zip fields t)).
  assert (Hlook : ∀ i f, fields !! i = Some f → is_Some (d !! f) ∧ d !! f = t !! i).
  { intros i f Hf. destruct (lookup_lt_is_Some_2 t i) as [v Hv].
    { rewrite <- Hlen. by eapply lookup_lt_Some. }
    unfold d. rewrite (dict_comprehension_acc_last _ _ _ i f v), Hv; [by eauto|done..|].
    intros j Hj Hfj. pose proof (NoDup_lookup _ _ _ _ Hnd Hf Hfj). lia. }
  assert (∃ t', Forall2 (λ f v, d !! f = Some v) fields' t') as [t' Ht'].
  { assert (Forall (λ f, is_Some (d !! f)) fields') as Hall.
    { apply Forall_forall. intros f Hf. rewrite Hperm in Hf.
      apply list_elem_of_lookup in Hf as [i Hi]. by apply (Hlook i). }
    clear -Hall. induction Hall as [|f fields' [v Hv] _ [t' Ht']].
    - exists []. constructor.
    - exists (v :: t'). by constructor. }
  exists t'. split; [|split].
  - apply tuple_of_dict_ok; [|done]. unfold d.
    rewrite dict_comprehension_acc_size, map_size_empty by done.
    by rewrite Hperm.
  - apply Forall2_length in Ht'. rewrite <- Ht', Hperm. done.
  - intros i j f Hi Hj.
    destruct (Forall2_lookup_l _ _ _ _ _ Ht' Hj) as (v & Hv & Hdv).
    destruct (Hlook i f Hi) as [_ Heq]. congruence.
Qed.

End tuples_and_dicts_more.

Lemma tuple_of_dict_coverage_witness :
  ["b"; "a"] ≡ₚ elements (dom ({["a" := 1; "b" := 2]} : gmap string nat))
  ∧ ∃ k, is_Some (({["a" := 1; "b" := 2]} : gmap string nat) !! k) ∧ k ∉ ["a"; "a"].
Proof.
  split.
  - refine (proj1 (tuple_of_dict_coverage ({["a" := 1; "b" := 2]} : gmap string nat)
                     ["b"; "a"] [2; 1] _) _).
    + by vm_compute.
    + apply (bool_decide_unpack (NoDup ["b"; "a"])). vm_compute. exact I.
  - refine (proj2 (tuple_of_dict_coverage ({["a" := 1; "b" := 2]} : gmap string nat)
                     ["a"; "a"] [1; 1] _) _).
    + by vm_compute.
    + intros [Hnotin _]%NoDup_cons. apply Hnotin. left.
Defined.

Lemma dict_of_tuple_keys_witness :
  dom ({["a" := 2]} : gmap string nat) = list_to_set ["a"; "a"]
  ∧ size ({["a" := 2]} : gmap string nat) ≤ length [1; 2]
  ∧ (size ({["a" := 2]} : gmap string nat) = length [1; 2] ↔ NoDup ["a"; "a"]).
Proof.
  apply (dict_of_tuple_keys [1; 2] ["a"; "a"] ({["a" := 2]} : gmap string nat)).
  by vm_compute.
Defined.

Lemma dict_of_tuple_last_wins_witness :
  is_Some (({["a" := 3; "b" := 2]} : gmap string nat) !! "a")
  ∧ ({["a" := 3; "b" := 2]} : gmap string nat) !! "a" = [1; 2; 3] !! 2.
Proof.
  apply (dict_of_tuple_last_wins [1; 2; 3] ["a"; "b"; "a"]
           ({["a" := 3; "b" := 2]} : gmap string nat) 2 "a").
  - by vm_compute.
  - reflexivity.
  - intros [|[|[|[|j]]]] Hj; try lia; done.
Defined.

Lemma tuple_reordered_witness :
  ∃ t', dict_of_tuple [1; 2; 3] ["a"; "b"; "c"] ≫= (λ d, tuple_of_dict d ["c"; "a"; "b"])
        = Returns t'
        ∧ length t' = length [1; 2; 3]
        ∧ ∀ i j f, ["a"; "b"; "c"] !! i = Some f → ["c"; "a"; "b"] !! j = Some f →
                   t' !! j = [1; 2; 3] !! i.
Proof.
  apply (tuple_reordered [1; 2; 3] ["a"; "b"; "c"] ["c"; "a"; "b"]).
  - apply (bool_decide_unpack (NoDup ["a"; "b"; "c"])). vm_compute. exact I.
  - reflexivity.
  - apply (bool_decide_unpack (["c"; "a"; "b"] ≡ₚ ["a"; "b"; "c"])). vm_compute. exact I.
Defined.

(** ** key_mappers/tuples.py: delimiter-separated values, further *)

Lemma string_app_length (s1 s2 : string) :
  String.length (s1 +:+ s2) = String.length s1 + String.length s2.
Proof.
  induction s1 as [|a s1 IH]; [done|].
  rewrite string_app_String. simpl. by rewrite IH.
Qed.

Lemma prefix_split (p s : string) :
  String.prefix p s = true → ∃ rest, s = p +:+ rest.
Proof.
  revert s. induction p as [|a p IH]; intros s Hp.
  - by exists s.
  - destruct s as [|b s]; [done|]. simpl in Hp.
    destruct (ascii_dec a b) as [->|]; [|done].
    destruct (IH s Hp) as [rest ->]. by exists rest.
Qed.

Lemma split_scan_nonempty (sep : string) (skip : nat) (cur s : string) :
  split_scan sep skip cur s ≠ [].
Proof.
  revert skip cur. induction s as [|a s IH]; intros skip cur; cbn [split_scan]; [done|].
  destruct skip; [|apply IH].
  destruct (String.prefix sep (String a s)); [done|apply IH].
Qed.

Lemma str_join_cons (sep x : string) (l : list string) :
  l ≠ [] → str_join sep (x :: l) = x +:+ sep +:+ str_join sep l.
Proof. by destruct l. Qed.

Lemma str_join_split_scan (c : ascii) (sep' : string) (n : nat) (s cur : string) :
  String.length s ≤ n →
  str_join (String c sep') (split_scan (String c sep') 0 cur s) = cur +:+ s.
Proof.
  revert s cur. induction n as [|n IH]; intros s cur Hn.
  { destruct s; simpl in *; [|lia]. by rewrite string_app_nil_r. }
  destruct s as [|a s]; [simpl; by rewrite string_app_nil_r|].
  cbn [split_scan].
  destruct (String.prefix (String c sep') (String a s)) eqn:Hp.
  - apply prefix_split in Hp as [rest Hrest].
    rewrite string_app_String in Hrest. injection Hrest as -> ->.
    cbn [String.length]. rewrite Nat.sub_1_r. cbn [Nat.pred].
    rewrite split_scan_skip.
    rewrite str_join_cons by apply split_scan_nonempty.
    rewrite IH, string_app_empty.
    + by rewrite <- string_app_String.
    + simpl in Hn. rewrite string_app_length in Hn. lia.
  - rewrite IH by (simpl in Hn; lia).
    by rewrite string_app_assoc, string_app_String, string_app_empty.
Qed.

(** X14: for a delimiter with at least one character, joining what
    [list_of_dsv] returns for a string gives the string back, whatever the
    string is. *)
Theorem dsv_of_list_of_dsv (s sep : string) :
  sep ≠ "" →
  ∃ l, list_of_dsv s sep = Returns l ∧ dsv_of_list l sep = s.
Proof.
  intros Hsep. destruct sep as [|c sep']; [done|].
  destruct s as [|a s]; [by exists []|].
  eexists. split; [reflexivity|].
  unfold dsv_of_list. by rewrite (str_join_split_scan c sep' (String.length (String a s))).
Qed.

Lemma dsv_of_list_of_dsv_witness :
  ∃ l, list_of_dsv "a::b:::c" "::" = Returns l ∧ dsv_of_list l "::" = "a::b:::c".
Proof. apply (dsv_of_list_of_dsv "a::b:::c" "::"). discriminate. Defined.

(** X15: what [list_of_dsv] returns is empty for the empty string only, and
    is never the list with the empty string as its one element. *)
Theorem list_of_dsv_no_empty_singleton (s sep : string) (l : list string) :
  list_of_dsv s sep = Returns l →
  (l = [] ↔ s = "") ∧ l ≠ [""].
Proof.
  destruct s as [|a s]; [by intros [= <-]|].
  destruct sep as [|c sep']; [done|].
  intros Hret.
  assert (l = split_scan (String c sep') 0 "" (String a s)) as ->.
  { unfold list_of_dsv, str_split in Hret. congruence. }
  clear Hret. split.
  - split; [|done]. intros Hnil. by apply split_scan_nonempty in Hnil.
  - intros Hl.
    pose proof (str_join_split_scan c sep' _ (String a s) "" (le_n _)) as Hjoin.
    rewrite Hl in Hjoin. done.
Qed.

Lemma list_of_dsv_no_empty_singleton_witness :
  ([""; ""] = [] ↔ "," = "") ∧ [""; ""] ≠ [""].
Proof. apply (list_of_dsv_no_empty_singleton "," "," [""; ""]). reflexivity. Defined.

(** X16: [list_of_dsv] raises exactly when the delimiter is empty and the
    string is not, and what it raises then is the [ValueError] of [split],
    not a [KeyValidationError]. *)
Theorem list_of_dsv_raises (s sep : string) (e : exception) :
  list_of_dsv s sep = Raises e
  ↔ s ≠ "" ∧ sep = "" ∧ e = Exc ValueError "empty separator".
Proof.
  destruct s as [|a s].
  { split; [done|]. by intros [? _]. }
  destruct sep as [|c sep']; unfold list_of_dsv, str_split.
  - split; [by intros [= <-]|]. by intros (_ & _ & ->).
  - split; [done|]. by intros (_ & ? & _).
Qed.

(** X17: the round trip the module's self-test checks: for words that are
    not empty and a delimiter that is not empty and shares no character with
    the words, splitting the joined words gives the words back. *)
Theorem dsv_self_test_property (words : list string) (sep : string) :
  sep ≠ "" →
  Forall (λ w, w ≠ "" ∧ ∀ c, char_in c w = true → char_in c sep = false) words →
  list_of_dsv (dsv_of_list words sep) sep = Returns words.
Proof.
  intros Hsep Hwords. destruct sep as [|c sep']; [done|].
  assert (Forall (λ w, char_in c w = false) words) as Hc.
  { eapply Forall_impl; [done|]. intros w [_ Hw]. simpl.
    destruct (char_in c w) eqn:Hcw; [|done].
    specialize (Hw c Hcw). simpl in Hw. by rewrite Ascii.eqb_refl in Hw. }
  unfold list_of_dsv, dsv_of_list.
  destruct words as [|w words]; [done|].
  destruct (str_join (String c sep') (w :: words)) eqn:Hjoin.
  - apply str_join_empty in Hjoin as [?|[= -> _]]; [done|].
    by apply Forall_cons in Hwords as [[? _] _].
  - rewrite <- Hjoin. unfold str_split. by rewrite split_scan_join.
Qed.

Lemma dsv_self_test_property_witness :
  list_of_dsv (dsv_of_list ["a"; "7"; "k"] "/-") "/-" = Returns ["a"; "7"; "k"].
Proof.
  apply (dsv_self_test_property ["a"; "7"; "k"] "/-"); [discriminate|].
  repeat constructor; try discriminate.
  all: intros c Hc; cbn [char_in] in Hc; rewrite orb_false_r in Hc;
    apply Ascii.eqb_eq in Hc as <-; reflexivity.
Defined.

(** ** key_mappers/tuples.py: strings, further *)

(** X18: [str_of_tuple] passes positional arguments only and [str_of_dict]
    keyword arguments only: [str_of_tuple] raises on every template with a
    named placeholder, and [str_of_dict] on every template with a positional
    one. *)
Theorem str_codecs_wrong_placeholders {V : Type} `{PyObject V}
    (t : list V) (d : gmap string V) (template : string) :
  (named_placeholders template ≠ [] →
   ∃ e, str_of_tuple t template = Raises (ExcOf KeyValidationError e))
  ∧ (0 < positional_placeholders template →
     ∃ e, str_of_dict d template = Raises (ExcOf KeyValidationError e)).
Proof.
  unfold str_of_tuple, str_of_dict, named_placeholders, positional_placeholders. split.
  - intros Hnamed. destruct (keywords _) as [|key keys] eqn:Hkeys; [done|].
    assert (key ∈ keywords (requested template)) as Hin by (rewrite Hkeys; left).
    apply keywords_elem in Hin as [plain Hin].
    destruct (str_format_unsatisfied t ∅ template _ Hin) as [e ->]; [|by exists e].
    by intros (v & Hv & _).
  - intros Hpos. destruct (positionals _) as [|i l] eqn:Hl; [simpl in Hpos; lia|].
    assert (i ∈ positionals (requested template)) as Hin by (rewrite Hl; left).
    apply positionals_elem in Hin as [plain Hin].
    destruct (str_format_unsatisfied [] d template _ Hin) as [e ->]; [|by exists e].
    by intros (v & Hv & _).
Qed.

Lemma str_codecs_wrong_placeholders_witness :
  in_every_world (λ _,
    (∃ e, str_of_tuple [PyInt 1] "{}{A}" = Raises (ExcOf KeyValidationError e))
    ∧ (∃ e, str_of_dict ({["A" := PyInt 1]} : gmap string pyval) "{A}{}"
            = Raises (ExcOf KeyValidationError e))).
Proof.
  intros w.
  destruct (@str_codecs_wrong_placeholders pyval (pyval_object w) [PyInt 1] ∅ "{}{A}")
    as [Ht _].
  destruct (@str_codecs_wrong_placeholders pyval (pyval_object w) []
              ({["A" := PyInt 1]} : gmap string pyval) "{A}{}") as [_ Hd].
  split.
  - apply Ht. by vm_compute.
  - apply Hd. vm_compute. lia.
Defined.

(** X19: a template without braces has no placeholder: [str_of_tuple] and
    [str_of_dict] return it as it is, whatever the tuple or the dict. *)
Theorem str_codecs_plain_template {V : Type} `{PyObject V}
    (t : list V) (d : gmap string V) (template : string) :
  brace_free template →
  str_of_tuple t template = Returns template
  ∧ str_of_dict d template = Returns template.
Proof.
  intros Hfree. unfold str_of_tuple, str_of_dict, str_format. rewrite !build_string_S.
  rewrite parse_format_text by done. by rewrite !do_markup_text.
Qed.

Lemma str_codecs_plain_template_witness :
  in_every_world (λ _,
    str_of_tuple [PyInt 1; PyInt 2] "a/b.txt" = Returns "a/b.txt"
    ∧ str_of_dict ({["A" := PyInt 1]} : gmap string pyval) "a/b.txt" = Returns "a/b.txt").
Proof.
  intros w.
  apply (@str_codecs_plain_template pyval (pyval_object w)
           [PyInt 1; PyInt 2] {["A" := PyInt 1]} "a/b.txt").
  by split.
Defined.

Lemma str_join_placeholders (sep : string) (n : nat) :
  str_join sep (replicate (S n) "{}") = with_placeholders ("" :: replicate n sep) "".
Proof.
  induction n as [|n IH]; [done|].
  change (str_join sep (replicate (S (S n)) "{}"))
    with ("{}" +:+ sep +:+ str_join sep (replicate (S n) "{}")).
  rewrite IH. reflexivity.
Qed.

Lemma str_join_populated (sep : string) (ws : list string) (n : nat) :
  length ws = S n → str_join sep ws = populated ("" :: replicate n sep) ws "".
Proof.
  revert ws. induction n as [|n IH]; intros ws Hlen.
  - destruct ws as [|w [|w' ws]]; try done. simpl. by rewrite string_app_nil_r.
  - destruct ws as [|w [|w' ws]]; try done.
    change (str_join sep (w :: w' :: ws)) with (w +:+ sep +:+ str_join sep (w' :: ws)).
    rewrite (IH (w' :: ws)) by (simpl in *; lia). reflexivity.
Qed.

(** X20: with one [{}] for each element, joined by a delimiter without
    braces, as template, [str_of_tuple] returns what [dsv_of_list] returns
    for the texts of the elements and the delimiter. *)
Theorem str_of_tuple_joined {V : Type} `{PyObject V}
    (t : list V) (ws : list string) (sep : string) :
  brace_free sep →
  Forall2 (λ v w, py_format v "" = Returns w) t ws →
  str_of_tuple t (dsv_of_list (replicate (length t) "{}") sep)
  = Returns (dsv_of_list ws sep).
Proof.
  intros Hsep Hall. unfold dsv_of_list.
  destruct t as [|v t]; [by apply Forall2_nil_inv_l in Hall as ->|].
  pose proof (Forall2_length _ _ _ Hall) as Hlen.
  cbn [length]. rewrite str_join_placeholders.
  rewrite (str_join_populated sep ws (length t)) by done.
  unfold str_of_tuple, str_format. rewrite build_string_S.
  destruct (do_markup_placeholders (build_string 1 (v :: t) ∅) ∅ "" (conj eq_refl eq_refl)
              ("" :: replicate (length t) sep) (v :: t) ws [] "" ANS_INIT) as [Hok _].
  - apply Forall_cons. split; [done|]. by apply Forall_replicate.
  - by right.
  - rewrite firstn_all2; [done|]. simpl. rewrite length_replicate. lia.
  - destruct Hok as [st' Hok]; [simpl; rewrite length_replicate; lia|].
    change ([] ++ v :: t) with (v :: t) in Hok. by rewrite Hok.
Qed.

Lemma str_of_tuple_joined_witness :
  in_every_world (λ _,
    str_of_tuple [PyStr "home"; PyInt 7; PyStr "x"] (dsv_of_list (replicate 3 "{}") "/")
    = Returns (dsv_of_list ["home"; "7"; "x"] "/")).
Proof.
  intros w.
  apply (@str_of_tuple_joined pyval (pyval_object w)
           [PyStr "home"; PyInt 7; PyStr "x"] ["home"; "7"; "x"] "/").
  - by split.
  - by repeat constructor.
Defined.

(** ** key_mappers/tuples.py: the pieces of a split *)

Lemma string_app_eq_empty (a b : string) : a +:+ b = "" → b = "".
Proof. destruct a; [done|]. by rewrite string_app_String. Qed.

Lemma string_snoc_split (cur a b : string) (c : ascii) :
  cur +:+ String c "" = a +:+ b → b ≠ "" →
  ∃ b0, b = b0 +:+ String c "" ∧ cur = a +:+ b0.
Proof.
  revert cur. induction a as [|x a IH]; intros cur Heq Hb.
  - rewrite string_app_empty in Heq. subst b. by exists cur.
  - rewrite string_app_String in Heq. destruct cur as [|y cur].
    + rewrite string_app_empty in Heq. injection Heq as _ Heq.
      symmetry in Heq. by apply string_app_eq_empty in Heq.
    + rewrite string_app_String in Heq. injection Heq as -> Heq.
      destruct (IH cur Heq Hb) as (b0 & -> & ->). by exists b0.
Qed.

Section split_pieces.
Variables (c : ascii) (sep' : string).
Local Abbreviation sep := (String c sep').

Lemma no_sep_inside_empty (s : string) : no_sep_inside sep "" s.
Proof. intros a b Heq Hb. symmetry in Heq. by apply string_app_eq_empty in Heq. Qed.

Lemma no_sep_inside_occurs (cur s : string) :
  no_sep_inside sep cur s → ¬ occurs_in sep cur.
Proof.
  intros Hcur (pre & post & Heq).
  specialize (Hcur pre (sep +:+ post) Heq).
  rewrite string_app_assoc, prefix_app in Hcur.
  by discriminate Hcur.
Qed.

Lemma split_scan_pieces (s : string) (skip : nat) (cur : string) :
  (skip = 0 → no_sep_inside sep cur s) → (0 < skip → cur = "") →
  ∀ piece, piece ∈ split_scan sep skip cur s → ¬ occurs_in sep piece.
Proof.
  revert skip cur. induction s as [|a s IH]; intros skip cur Hzero Hskip piece Hin.
  - cbn [split_scan] in Hin. apply list_elem_of_singleton in Hin as ->.
    destruct skip.
    + by eapply no_sep_inside_occurs, Hzero.
    + rewrite Hskip by lia. apply (no_sep_inside_occurs _ ""), no_sep_inside_empty.
  - cbn [split_scan] in Hin. destruct skip as [|skip].
    + destruct (String.prefix sep (String a s)) eqn:Hp.
      * apply elem_of_cons in Hin as [->|Hin].
        -- by eapply no_sep_inside_occurs, Hzero.
        -- eapply IH; [| |done]; [intros _; apply no_sep_inside_empty|done].
      * eapply IH; [| |done]; [|lia]. intros _ x b Heq Hb.
        destruct (string_snoc_split _ _ _ _ Heq Hb) as (b0 & -> & ->).
        rewrite string_app_assoc, string_app_String, string_app_empty.
        destruct b0 as [|y b0]; [by rewrite string_app_empty|].
        by apply (Hzero eq_refl x).
    + eapply IH; [| |done].
      * intros _. rewrite Hskip by lia. apply no_sep_inside_empty.
      * intros _. apply Hskip. lia.
Qed.

End split_pieces.

(** X21: none of the strings [list_of_dsv] returns contains the
    delimiter. *)
Theorem list_of_dsv_pieces (s sep : string) (l : list string) :
  list_of_dsv s sep = Returns l →
  ∀ piece, piece ∈ l → ¬ occurs_in sep piece.
Proof.
  destruct s as [|a s].
  { intros [= <-] piece Hin. by apply elem_of_nil in Hin. }
  destruct sep as [|c sep']; [done|].
  intros Hret.
  assert (l = split_scan (String c sep') 0 "" (String a s)) as ->.
  { unfold list_of_dsv, str_split in Hret. congruence. }
  apply split_scan_pieces; [|lia]. intros _. apply no_sep_inside_empty.
Qed.

Lemma list_of_dsv_pieces_witness :
  ¬ occurs_in "aa" "a".
Proof.
  apply (list_of_dsv_pieces "aaa" "aa" [""; "a"]); [reflexivity|].
  right. left.
Defined.

(** ** key_mappers/tuples.py: repeated field names *)

(** X22: for a field list of the length of [t], turning [t] into a dict and
    the dict back into a tuple returns exactly when no field is repeated; with
    a repeated field it raises a [KeyValidationError]. *)
Theorem tuple_round_trip_repeats {K V : Type} `{Countable K} `{KeyArg K}
    (t : list V) (fields : list K) :
  length fields = length t →
  ((∃ t', dict_of_tuple t fields ≫= (λ d, tuple_of_dict d fields) = Returns t')
   ↔ NoDup fields)
  ∧ (¬ NoDup fields →
     ∃ msg, dict_of_tuple t fields ≫= (λ d, tuple_of_dict d fields)
            = Raises (Exc KeyValidationError msg)).
Proof.
  intros Hlen. unfold dict_of_tuple.
  rewrite bool_decide_true by done. rewrite assert_condition_true.
  unfold mret, outcome_ret. rewrite bind_returns. unfold dict_comprehension.
  assert (Hdup : ¬ NoDup fields →
    ∃ msg, tuple_of_dict (foldl (λ d '(f, x), <[f:=x]> d) ∅ (zip fields t)) fields
           = Raises (Exc KeyValidationError msg)).
  { intros Hnd. unfold tuple_of_dict. rewrite bool_decide_false.
    - rewrite assert_condition_false. by eexists.
    - intros Hsize. apply Hnd.
      eapply (dict_comprehension_acc_size_full ∅ fields t); [done|].
      by rewrite map_size_empty. }
  split; [|done]. split.
  - intros [t' Ht']. destruct (decide (NoDup fields)) as [|Hnd]; [done|].
    destruct (Hdup Hnd) as [msg Hmsg]. congruence.
  - intros Hnd. exists t. apply tuple_of_dict_ok.
    + rewrite dict_comprehension_acc_size, map_size_empty; done.
    + by apply dict_comprehension_acc_nodup.
Qed.

Lemma tuple_round_trip_repeats_witness :
  ∃ msg, dict_of_tuple [1; 2; 3] ["a"; "b"; "a"] ≫= (λ d, tuple_of_dict d ["a"; "b"; "a"])
         = Raises (Exc KeyValidationError msg).
Proof.
  refine (proj2 (tuple_round_trip_repeats [1; 2; 3] ["a"; "b"; "a"] _) _).
  - reflexivity.
  - intros [Hnotin _]%NoDup_cons. apply Hnotin. right. left.
Defined.

(** ** key_mappers/tuples.py: when splitting undoes joining *)

Lemma string_app_inv_head (a s t : string) : a +:+ s = a +:+ t → s = t.
Proof.
  induction a as [|x a IH]; [done|].
  rewrite !string_app_String. intros [= Heq]. by apply IH.
Qed.

Lemma prefix_app_short (p s t : string) :
  String.length p ≤ String.length s →
  String.prefix p (s +:+ t) = String.prefix p s.
Proof.
  revert s. induction p as [|a p IH]; intros s Hlen.
  - by destruct s, t.
  - destruct s as [|b s]; [simpl in Hlen; lia|].
    rewrite string_app_String. simpl.
    destruct (ascii_dec a b); [|done]. apply IH. simpl in Hlen. lia.
Qed.

Lemma prefix_app_mono (p s t : string) :
  String.prefix p s = true → String.prefix p (s +:+ t) = true.
Proof.
  intros [r ->]%prefix_split. rewrite string_app_assoc. apply prefix_app.
Qed.

Section split_exact.
Variables (c : ascii) (sep' : string).
Local Abbreviation sep := (String c sep').

Lemma sep_starts_inside_tail (x rest : string) :
  sep_starts_inside sep x (sep +:+ rest) = sep_starts_inside sep x sep.
Proof.
  induction x as [|a x IH]; [done|]. cbn [sep_starts_inside]. rewrite IH. f_equal.
  rewrite <- string_app_assoc. apply prefix_app_short.
  rewrite string_app_length. simpl. lia.
Qed.

(** A piece inside which no separator starts is read up to its end. *)
Lemma split_scan_run (e rest cur : string) :
  sep_starts_inside sep e rest = false →
  split_scan sep 0 cur (e +:+ rest) = split_scan sep 0 (cur +:+ e) rest.
Proof.
  revert cur. induction e as [|a e IH]; intros cur Hin.
  - by rewrite string_app_nil_r.
  - cbn [sep_starts_inside] in Hin. apply orb_false_iff in Hin as [Hp Hin].
    rewrite string_app_String in Hp |- *. cbn [split_scan]. rewrite Hp.
    rewrite IH by done.
    by rewrite string_app_assoc, string_app_String, string_app_empty.
Qed.

Lemma split_scan_delimited (e : string) (d : list string) (cur : string) :
  delimited sep (e :: d) = true →
  split_scan sep 0 cur (str_join sep (e :: d)) = (cur +:+ e) :: d.
Proof.
  revert e cur. induction d as [|e2 d IH]; intros e cur Hd.
  - cbn [delimited str_join] in *. apply negb_true_iff in Hd.
    rewrite <- (string_app_nil_r e) at 1. by rewrite split_scan_run.
  - change (delimited sep (e :: e2 :: d))
      with (negb (sep_starts_inside sep e sep) && delimited sep (e2 :: d)) in Hd.
    apply andb_true_iff in Hd as [He Hd]. apply negb_true_iff in He.
    change (str_join sep (e :: e2 :: d)) with (e +:+ sep +:+ str_join sep (e2 :: d)).
    rewrite split_scan_run by (by rewrite sep_starts_inside_tail).
    rewrite split_scan_sep. by rewrite IH, string_app_empty.
Qed.

(** What a scan that gives one piece, and one that gives more, has read. *)
Lemma split_scan_one (s cur p : string) :
  split_scan sep 0 cur s = [p] → sep_starts_inside sep s "" = false.
Proof.
  revert cur. induction s as [|a s IH]; intros cur Hscan; [done|].
  cbn [split_scan] in Hscan. cbn [sep_starts_inside].
  rewrite string_app_nil_r.
  destruct (String.prefix sep (String a s)) eqn:Hp.
  - injection Hscan as _ Hnil. by apply split_scan_nonempty in Hnil.
  - simpl. by eapply IH.
Qed.

Lemma split_scan_more (s cur p q : string) (l : list string) :
  split_scan sep 0 cur s = p :: q :: l →
  ∃ e rest, s = e +:+ sep +:+ rest ∧ p = cur +:+ e
            ∧ q :: l = split_scan sep 0 "" rest
            ∧ sep_starts_inside sep e (sep +:+ rest) = false.
Proof.
  revert cur. induction s as [|a s IH]; intros cur Hscan; [done|].
  cbn [split_scan] in Hscan.
  destruct (String.prefix sep (String a s)) eqn:Hp.
  - injection Hscan as <- Hrest.
    destruct (prefix_split _ _ Hp) as [rest Heq].
    exists "", rest. rewrite string_app_empty, string_app_nil_r.
    split; [done|]. split; [done|]. split; [|done].
    rewrite string_app_String in Heq. injection Heq as _ ->.
    rewrite Nat.sub_0_r, split_scan_skip in Hrest. done.
  - destruct (IH _ Hscan) as (e & rest & -> & -> & Hl & Hin).
    exists (String a e), rest. rewrite string_app_String.
    split; [done|]. split.
    { by rewrite string_app_assoc, string_app_String, string_app_empty. }
    split; [done|].
    change (String.prefix sep (String a (e +:+ sep +:+ rest))
            || sep_starts_inside sep e (sep +:+ rest) = false).
    by rewrite Hp, Hin.
Qed.

Lemma delimited_split_scan (d : list string) :
  d ≠ [] → split_scan sep 0 "" (str_join sep d) = d → delimited sep d = true.
Proof.
  induction d as [|x d IH]; [done|]. intros _ Hscan.
  destruct d as [|y d].
  - cbn [str_join delimited] in *. apply negb_true_iff. by eapply split_scan_one.
  - change (str_join sep (x :: y :: d)) with (x +:+ sep +:+ str_join sep (y :: d)) in Hscan.
    destruct (split_scan_more _ _ _ _ _ Hscan) as (e & rest & Heq & Hx & Hl & Hin).
    rewrite string_app_empty in Hx. subst e.
    apply string_app_inv_head, (string_app_inv_head sep) in Heq. subst rest.
    change (delimited sep (x :: y :: d))
      with (negb (sep_starts_inside sep x sep) && delimited sep (y :: d)).
    apply andb_true_iff. split.
    + apply negb_true_iff. by rewrite <- (sep_starts_inside_tail x (str_join sep (y :: d))).
    + by apply IH.
Qed.

Lemma round_trip_delimited (d : list string) :
  list_of_dsv (dsv_of_list d sep) sep = Returns d
  ↔ d ≠ [""] ∧ delimited sep d = true.
Proof.
  unfold list_of_dsv, dsv_of_list. destruct d as [|e d]; [done|].
  destruct (str_join sep (e :: d)) eqn:Hjoin.
  - split; [done|]. intros [Hne _].
    apply str_join_empty in Hjoin as [?|?]; congruence.
  - rewrite <- Hjoin. unfold str_split. split.
    + intros [= Hscan]. split.
      * intros [= -> ->]. done.
      * by apply delimited_split_scan.
    + intros [_ Hd]. by rewrite split_scan_delimited.
Qed.

End split_exact.

(** It is enough that the delimiter starts inside no item followed by the
    delimiter. *)
Lemma delimited_no_sep_inside (sep : string) (d : list string) :
  sep ≠ "" → Forall (λ x, sep_starts_inside sep x sep = false) d → delimited sep d = true.
Proof.
  intros Hsep. induction 1 as [|x d Hx _ IH]; [done|].
  destruct d as [|y d].
  - cbn [delimited]. apply negb_true_iff.
    destruct sep as [|c sep']; [done|]. clear -Hx.
    induction x as [|a x IHx]; [done|]. cbn [sep_starts_inside] in *.
    apply orb_false_iff in Hx as [Hp Hx]. rewrite IHx by done.
    rewrite orb_false_r, string_app_nil_r.
    destruct (String.prefix (String c sep') (String a x)) eqn:Hpx; [|done].
    by rewrite (prefix_app_mono _ _ (String c sep') Hpx) in Hp.
  - change (delimited sep (x :: y :: d))
      with (negb (sep_starts_inside sep x sep) && delimited sep (y :: d)).
    by rewrite Hx, IH.
Qed.

(** C5, as amended: for a delimiter with at least one character and a list
    of strings, splitting the joined string gives the list back exactly when
    the list is not [['']] and the delimiter starts nowhere in the joined
    string but at the joins; for a tuple the result, the list of its items
    under the same condition, is not equal to it.  [dsv_of_list([], '@')] is
    [''] and [list_of_dsv('', '@')] is [[]]. *)
Theorem list_of_dsv_of_list (seq : sequence) (sep : string) :
  sep ≠ "" →
  (list_of_dsv (dsv_of_list (items_of seq) sep) sep = Returns (items_of seq)
   ↔ items_of seq ≠ [""] ∧ delimited sep (items_of seq) = true)
  ∧ ((∃ l, list_of_dsv (dsv_of_list (items_of seq) sep) sep = Returns l
           ∧ list_equals l seq)
     ↔ (∃ items, seq = PyList items)
       ∧ items_of seq ≠ [""] ∧ delimited sep (items_of seq) = true)
  ∧ dsv_of_list [] "@" = ""
  ∧ list_of_dsv "" "@" = Returns [].
Proof.
  intros Hsep. destruct sep as [|c sep']; [done|].
  split; [apply round_trip_delimited|]. split; [|done].
  rewrite <- round_trip_delimited. unfold list_equals. split.
  - intros (l & Hl & ->). split; [by eexists|done].
  - intros [[items ->] Hl]. by exists items.
Qed.

Lemma list_of_dsv_of_list_witness :
  list_of_dsv (dsv_of_list ["a:b"; ""; "c"] "::") "::" = Returns ["a:b"; ""; "c"]
  ∧ ∃ l, list_of_dsv (dsv_of_list ["a:b"; ""; "c"] "::") "::" = Returns l
         ∧ list_equals l (PyList ["a:b"; ""; "c"]).
Proof.
  destruct (list_of_dsv_of_list (PyList ["a:b"; ""; "c"]) "::") as (Hl & Heq & _);
    [discriminate|].
  split.
  - apply Hl. split; [discriminate|reflexivity].
  - apply Heq. split; [by eexists|]. split; [discriminate|reflexivity].
Defined.

(** C5, as stated for every sequence, fails for a tuple: what comes back is
    a list. *)
Lemma list_of_dsv_of_list_tuple :
  ¬ ∃ l, list_of_dsv (dsv_of_list (items_of (PyTuple ["a"; "b"])) ",") "," = Returns l
         ∧ list_equals l (PyTuple ["a"; "b"]).
Proof. intros (l & _ & Heq). discriminate Heq. Qed.

